(** * Hyphae Mesh QR generator: Meshtastic channel URLs

    A shallow embedding of [js/qr-generator.js]: the protobuf-lite
    encoder (varints, tagged fields, the four message builders), the
    base64 / base64url framing and the URL generators, followed by the
    properties the specification states about them.

    Conventions of the embedding.
    - A JavaScript Number that holds an integer is a [Z].  The bit
      operators work on 32-bit views of their operands; the conversions
      [ToInt32] and [ToUint32] are written out.
    - A [Uint8Array] is a [list Z]; every store into one wraps modulo 256
      ([ToUint8]).
    - A property that may be [undefined] is an [option].
    - Text that is known to consist of Latin-1 code units (binary strings,
      base64 text, URLs) is a [string]; a channel name, which may be any
      JavaScript string, is the list of its UTF-16 code units. *)

From Equations Require Import Equations.
From Stdlib Require Import ZArith Lia Bool Ascii String List.
Import ListNotations.
Open Scope Z_scope.

(** ** JavaScript primitives *)

Module JS.

(** 32-bit views of an integral Number (ECMAScript ToInt32 / ToUint32). *)
Definition ToUint32 (x : Z) : Z := x mod 2^32.

Definition ToInt32 (x : Z) : Z := (x + 2^31) mod 2^32 - 2^31.

(** Element conversion of a [Uint8Array] store. *)
Definition ToUint8 (x : Z) : Z := x mod 256.

(** [a & b] *)
Definition bitand (a b : Z) : Z := Z.land (ToInt32 a) (ToInt32 b).

(** [a | b] *)
Definition bitor (a b : Z) : Z := Z.lor (ToInt32 a) (ToInt32 b).

(** [a << n]: the shift count is taken modulo 32 and the result is
    brought back to a signed 32-bit integer. *)
Definition shl (a n : Z) : Z :=
  ToInt32 (Z.shiftl (ToInt32 a) (Z.land (ToUint32 n) 31)).

(** [a >>> n]: zero-filling shift of the unsigned 32-bit view. *)
Definition ushr (a n : Z) : Z :=
  Z.shiftr (ToUint32 a) (Z.land (ToUint32 n) 31).

(** [new Uint8Array(arrayOfNumbers)] *)
Definition Uint8Array_from (l : list Z) : list Z := map ToUint8 l.

(** [new Uint8Array(n)]: [n] zero bytes. *)
Definition Uint8Array_new (n : nat) : list Z := repeat 0 n.

(** [target.set(src, offset)], for [offset + src.length <= target.length]
    (outside that range JavaScript raises a RangeError; the only caller,
    [concatUint8Arrays], stays inside it, see [concat_offsets_in_bounds]). *)
Definition Uint8Array_set (target src : list Z) (offset : nat) : list Z :=
  firstn offset target ++ map ToUint8 src
    ++ skipn (offset + length src) target.

(** [String.fromCharCode(b)] for an element [b] of a [Uint8Array]: the
    Latin-1 character with that code. *)
Definition fromCharCode (b : Z) : ascii := ascii_of_N (Z.to_N b).

(** [s.charCodeAt(i)] of a Latin-1 character. *)
Definition charCode (c : ascii) : Z := Z.of_N (N_of_ascii c).

(** [s.replace(/c/g, d)] for single characters [c] and [d]. *)
Fixpoint replaceAll (c d : ascii) (s : string) : string :=
  match s with
  | EmptyString => EmptyString
  | String x rest =>
      String (if Ascii.eqb x c then d else x) (replaceAll c d rest)
  end.

(** [s.replace(/c/g, '')] *)
Fixpoint removeAll (c : ascii) (s : string) : string :=
  match s with
  | EmptyString => EmptyString
  | String x rest =>
      if Ascii.eqb x c then removeAll c rest else String x (removeAll c rest)
  end.

(** *** UTF-8 encoding of a JavaScript string ([TextEncoder.encode]).

    The string is its list of UTF-16 code units.  A surrogate pair makes one
    supplementary code point; a lone surrogate is replaced by U+FFFD. *)
Definition is_high_surrogate (c : Z) : bool := (0xD800 <=? c) && (c <=? 0xDBFF).

Definition is_low_surrogate (c : Z) : bool := (0xDC00 <=? c) && (c <=? 0xDFFF).

Definition utf8_of_code_point (cp : Z) : list Z :=
  if cp <? 0x80 then [cp]
  else if cp <? 0x800 then [0xC0 + cp / 64; 0x80 + cp mod 64]
  else if cp <? 0x10000 then
    [0xE0 + cp / 4096; 0x80 + (cp / 64) mod 64; 0x80 + cp mod 64]
  else
    [0xF0 + cp / 262144; 0x80 + (cp / 4096) mod 64;
     0x80 + (cp / 64) mod 64; 0x80 + cp mod 64].

Fixpoint utf8_encode (s : list Z) : list Z :=
  match s with
  | [] => []
  | c :: rest =>
      if is_high_surrogate c then
        match rest with
        | d :: rest' =>
            if is_low_surrogate d then
              utf8_of_code_point
                (0x10000 + (c - 0xD800) * 1024 + (d - 0xDC00))
                ++ utf8_encode rest'
            else utf8_of_code_point 0xFFFD ++ utf8_encode rest
        | [] => utf8_of_code_point 0xFFFD
        end
      else if is_low_surrogate c then
        utf8_of_code_point 0xFFFD ++ utf8_encode rest
      else utf8_of_code_point c ++ utf8_encode rest
  end.

(** [new TextEncoder().encode(str)]: a [Uint8Array] of the UTF-8 bytes. *)
Definition TextEncoder_encode (str : list Z) : list Z :=
  Uint8Array_from (utf8_encode str).

(** The code units of an ASCII literal. *)
Definition code_units (s : string) : list Z :=
  map charCode (list_ascii_of_string s).

(** *** Base64 ([btoa] and [atob]).

    [btoa] is RFC 4648 base64 of the code units of a binary string: three
    bytes make four 6-bit groups, a final group of one or two bytes is
    padded with [=]. *)
Definition base64_alphabet : string :=
  "ABCDEFGHIJKLMNOPQRSTUVWXYZabcdefghijklmnopqrstuvwxyz0123456789+/".

Definition base64_char (i : Z) : ascii :=
  nth (Z.to_nat i) (list_ascii_of_string base64_alphabet) "="%char.

Fixpoint index_of (c : ascii) (l : list ascii) : option Z :=
  match l with
  | [] => None
  | x :: rest =>
      if Ascii.eqb x c then Some 0 else option_map Z.succ (index_of c rest)
  end.

Definition base64_index (c : ascii) : option Z :=
  index_of c (list_ascii_of_string base64_alphabet).

Fixpoint sextets (bytes : list Z) : list Z :=
  match bytes with
  | a :: b :: c :: rest =>
      a / 4 :: (a mod 4) * 16 + b / 16 :: (b mod 16) * 4 + c / 64 :: c mod 64
        :: sextets rest
  | [a; b] => [a / 4; (a mod 4) * 16 + b / 16; (b mod 16) * 4]
  | [a] => [a / 4; (a mod 4) * 16]
  | [] => []
  end.

Definition base64_padding (n : nat) : string :=
  match (n mod 3)%nat with
  | 1%nat => "=="
  | 2%nat => "="
  | _ => ""
  end.

Definition btoa (binary : string) : string :=
  let bytes := map charCode (list_ascii_of_string binary) in
  (string_of_list_ascii (map base64_char (sextets bytes))
     ++ base64_padding (length bytes))%string.

(** [atob] is the forgiving base64 decoder of the HTML standard: ASCII
    whitespace is dropped; when the length is a multiple of four, one or two
    trailing [=] are dropped; a remaining length of 1 modulo 4, or a
    character outside the alphabet, is an error ([None]); the 6-bit groups are
    then regrouped into bytes and the incomplete last byte is discarded. *)
Definition is_ascii_whitespace (c : ascii) : bool :=
  let n := charCode c in
  (n =? 9) || (n =? 10) || (n =? 12) || (n =? 13) || (n =? 32).

Definition ends_with_pad (l : list ascii) : bool :=
  match rev l with
  | c :: _ => Ascii.eqb c "="
  | [] => false
  end.

Definition strip_one_pad (l : list ascii) : list ascii :=
  if ends_with_pad l then removelast l else l.

Definition strip_padding (l : list ascii) : list ascii :=
  strip_one_pad (strip_one_pad l).

Fixpoint indices (l : list ascii) : option (list Z) :=
  match l with
  | [] => Some []
  | c :: rest =>
      match base64_index c, indices rest with
      | Some i, Some tl => Some (i :: tl)
      | _, _ => None
      end
  end.

Fixpoint unsextets (l : list Z) : list Z :=
  match l with
  | s1 :: s2 :: s3 :: s4 :: rest =>
      s1 * 4 + s2 / 16 :: (s2 mod 16) * 16 + s3 / 4 :: (s3 mod 4) * 64 + s4
        :: unsextets rest
  | [s1; s2; s3] => [s1 * 4 + s2 / 16; (s2 mod 16) * 16 + s3 / 4]
  | [s1; s2] => [s1 * 4 + s2 / 16]
  | _ => []
  end.

Definition atob (data : string) : option string :=
  let data :=
    filter (fun c => negb (is_ascii_whitespace c)) (list_ascii_of_string data) in
  let data :=
    if (length data mod 4 =? 0)%nat then strip_padding data else data in
  if (length data mod 4 =? 1)%nat then None
  else
    match indices data with
    | Some groups =>
        Some (string_of_list_ascii (map fromCharCode (unsextets groups)))
    | None => None
    end.

End JS.

Import JS.

(** ** Meshtastic configuration objects *)

Module LoRa.
Record t := mk {
  region : option Z;
  modemPreset : option Z;
  hopLimit : option Z;
  txEnabled : option bool;
  txPower : option Z
}.
End LoRa.

Module ChannelSettings.
Record t := mk {
  channelNum : option Z;
  psk : option (list Z);
  name : option (list Z);
  uplinkEnabled : option bool;
  downlinkEnabled : option bool
}.
End ChannelSettings.

Module Channel.
Record t := mk {
  index : option Z;
  settings : option ChannelSettings.t;
  role : option Z
}.
End Channel.

Module Config.
Record t := mk {
  channels : option (list Channel.t);
  lora : option LoRa.t
}.
End Config.

(** The defaults of the Hyphae Mesh Nashville network: [HYPHAE_MESH_CONFIG.lora]
    and [HYPHAE_MESH_CONFIG.channel]. *)
Module HYPHAE_MESH_CONFIG.
Definition lora : LoRa.t :=
  {| LoRa.region := Some 1;
     LoRa.modemPreset := Some 3;
     LoRa.hopLimit := Some 6;
     LoRa.txEnabled := Some true;
     LoRa.txPower := Some 30 |}.

Module channel.
Definition name : list Z := code_units "".
Definition psk : list Z := Uint8Array_from [1].
Definition uplinkEnabled : bool := true.
Definition downlinkEnabled : bool := true.
End channel.
End HYPHAE_MESH_CONFIG.

(** ** Protobuf-lite encoding *)

Module WIRE_TYPE.
Definition VARINT : Z := 0.
Definition FIXED64 : Z := 1.
Definition LENGTH_DELIMITED : Z := 2.
Definition FIXED32 : Z := 5.
End WIRE_TYPE.

(** The [while] loop of [encodeVarint]; [bytes] is the array being filled.
    The value strictly shrinks at every turn, so its bit length is a
    termination measure. *)
Equations? encodeVarint_loop (value : Z) (bytes : list Z) : list Z
  by wf (Z.to_nat (Z.log2 value)) lt :=
  encodeVarint_loop value bytes with Z_lt_dec 0x7f value => {
    | left _ =>
        encodeVarint_loop (ushr value 7)
          (bytes ++ [bitor (bitand value 0x7f) 0x80]);
    | right _ => bytes ++ [bitand value 0x7f] }.
Proof.
  unfold ushr, ToUint32.
  change (Z.land (7 mod 2 ^ 32) 31) with 7.
  assert (Hm : 0 <= value mod 2 ^ 32 <= value).
  { split; [apply Z.mod_pos_bound; lia | apply Z.mod_le; lia]. }
  assert (Hl : 7 <= Z.log2 value).
  { change 7 with (Z.log2 128). apply Z.log2_le_mono. lia. }
  destruct (Z.eq_dec (value mod 2 ^ 32) 0) as [E | E].
  - rewrite E, Z.shiftr_0_l. simpl Z.log2. lia.
  - rewrite Z.log2_shiftr by lia.
    assert (Z.log2 (value mod 2 ^ 32) <= Z.log2 value)
      by (apply Z.log2_le_mono; lia).
    lia.
Qed.

Definition encodeVarint (value : Z) : list Z :=
  Uint8Array_from (encodeVarint_loop value []).

(** The [data] argument of [encodeField] is a Number for the varint wire
    type and a [Uint8Array] for the length-delimited one. *)
Inductive field_data : Type :=
| Number (value : Z)
| Bytes (bytes : list Z).

(** The three uses [encodeField] makes of [data].  Every call in the source
    passes a Number with [VARINT] and a [Uint8Array] with [LENGTH_DELIMITED];
    the other combinations are given as JavaScript's coercions give them:
    as an argument of [encodeVarint] a one-element array counts as its
    element and NaN or [undefined] count as 0.  Spreading a Number raises a
    TypeError in JavaScript; here it contributes no element. *)
Definition data_number (data : field_data) : Z :=
  match data with
  | Number v => v
  | Bytes [b] => b
  | Bytes _ => 0
  end.

Definition data_length (data : field_data) : Z :=
  match data with
  | Number _ => 0
  | Bytes bs => Z.of_nat (length bs)
  end.

Definition data_elements (data : field_data) : list Z :=
  match data with
  | Number _ => []
  | Bytes bs => bs
  end.

Definition encodeField (fieldNumber wireType : Z) (data : field_data) : list Z :=
  let tag := bitor (shl fieldNumber 3) wireType in
  let tagBytes := encodeVarint tag in
  if wireType =? WIRE_TYPE.VARINT then
    Uint8Array_from (tagBytes ++ encodeVarint (data_number data))
  else if wireType =? WIRE_TYPE.LENGTH_DELIMITED then
    let length := encodeVarint (data_length data) in
    Uint8Array_from (tagBytes ++ length ++ data_elements data)
  else tagBytes.

Definition encodeString (fieldNumber : Z) (str : list Z) : list Z :=
  let bytes := TextEncoder_encode str in
  encodeField fieldNumber WIRE_TYPE.LENGTH_DELIMITED (Bytes bytes).

Definition encodeBytes (fieldNumber : Z) (bytes : list Z) : list Z :=
  encodeField fieldNumber WIRE_TYPE.LENGTH_DELIMITED (Bytes bytes).

Definition encodeUint32 (fieldNumber value : Z) : list Z :=
  encodeField fieldNumber WIRE_TYPE.VARINT (Number value).

Definition encodeBool (fieldNumber : Z) (value : bool) : list Z :=
  encodeField fieldNumber WIRE_TYPE.VARINT (Number (if value then 1 else 0)).

(** ** Encoding utilities *)

(** The body of the [for ... of] loop of [concatUint8Arrays], on the pair
    of the array being filled and the write offset. *)
Definition concat_step (state : list Z * nat) (arr : list Z) : list Z * nat :=
  let (result, offset) := state in
  (Uint8Array_set result arr offset, (offset + length arr)%nat).

Definition concatUint8Arrays (arrays : list (list Z)) : list Z :=
  let totalLength :=
    fold_left (fun sum arr => (sum + length arr)%nat) arrays 0%nat in
  let result := Uint8Array_new totalLength in
  fst (fold_left concat_step arrays (result, 0%nat)).

Definition uint8ArrayToBase64 (bytes : list Z) : string :=
  let binary :=
    fold_left (fun binary b => (binary ++ String (fromCharCode b) "")%string)
      bytes ""%string in
  btoa binary.

Definition uint8ArrayToBase64URL (bytes : list Z) : string :=
  removeAll "="
    (replaceAll "/" "_" (replaceAll "+" "-" (uint8ArrayToBase64 bytes))).

(** [CryptoUtils.base64ToUint8Array] of the companion application. *)
Definition base64ToUint8Array (base64 : string) : option (list Z) :=
  match atob base64 with
  | Some binary =>
      Some (Uint8Array_from (map charCode (list_ascii_of_string binary)))
  | None => None
  end.

(** ** Meshtastic proto message builders *)

(** [parts.push(x)] *)
Definition push {A : Type} (parts : list A) (x : A) : list A := parts ++ [x].

(** Truthiness of a string: the empty string is falsy. *)
Definition nonempty (str : list Z) : bool :=
  match str with
  | [] => false
  | _ :: _ => true
  end.

Definition buildChannelSettings (settings : ChannelSettings.t) : list Z :=
  let parts : list (list Z) := [] in
  (* field 1: channel_num, only for non-primary channels *)
  let parts :=
    match ChannelSettings.channelNum settings with
    | Some channelNum =>
        if channelNum >? 0 then push parts (encodeUint32 1 channelNum)
        else parts
    | None => parts
    end in
  (* field 2: psk *)
  let parts :=
    match ChannelSettings.psk settings with
    | Some psk => push parts (encodeBytes 2 psk)
    | None => parts
    end in
  (* field 3: name *)
  let parts :=
    match ChannelSettings.name settings with
    | Some name =>
        if nonempty name then push parts (encodeString 3 name) else parts
    | None => parts
    end in
  (* field 5: uplink_enabled *)
  let parts :=
    match ChannelSettings.uplinkEnabled settings with
    | Some uplinkEnabled => push parts (encodeBool 5 uplinkEnabled)
    | None => parts
    end in
  (* field 6: downlink_enabled *)
  let parts :=
    match ChannelSettings.downlinkEnabled settings with
    | Some downlinkEnabled => push parts (encodeBool 6 downlinkEnabled)
    | None => parts
    end in
  concatUint8Arrays parts.

Definition buildChannel (channel : Channel.t) : list Z :=
  let parts : list (list Z) := [] in
  (* field 1: index *)
  let parts :=
    match Channel.index channel with
    | Some index => push parts (encodeUint32 1 index)
    | None => parts
    end in
  (* field 2: settings *)
  let parts :=
    match Channel.settings channel with
    | Some s =>
        let settings := buildChannelSettings s in
        push parts
          (encodeField 2 WIRE_TYPE.LENGTH_DELIMITED (Bytes settings))
    | None => parts
    end in
  (* field 3: role *)
  let parts :=
    match Channel.role channel with
    | Some role => push parts (encodeUint32 3 role)
    | None => parts
    end in
  concatUint8Arrays parts.

Definition buildLoRaConfig (lora : LoRa.t) : list Z :=
  let parts : list (list Z) := [] in
  (* field 3: region *)
  let parts :=
    match LoRa.region lora with
    | Some region => push parts (encodeUint32 3 region)
    | None => parts
    end in
  (* field 4: modem_preset *)
  let parts :=
    match LoRa.modemPreset lora with
    | Some modemPreset => push parts (encodeUint32 4 modemPreset)
    | None => parts
    end in
  (* field 7: hop_limit *)
  let parts :=
    match LoRa.hopLimit lora with
    | Some hopLimit => push parts (encodeUint32 7 hopLimit)
    | None => parts
    end in
  (* field 11: tx_enabled *)
  let parts :=
    match LoRa.txEnabled lora with
    | Some txEnabled => push parts (encodeBool 11 txEnabled)
    | None => parts
    end in
  (* field 12: tx_power *)
  let parts :=
    match LoRa.txPower lora with
    | Some txPower => push parts (encodeUint32 12 txPower)
    | None => parts
    end in
  concatUint8Arrays parts.

Definition buildChannelSet (config : Config.t) : list Z :=
  let parts : list (list Z) := [] in
  (* field 1: settings (repeated Channel) *)
  let parts :=
    match Config.channels config with
    | Some channels =>
        fold_left
          (fun parts channel =>
             let channelBytes := buildChannel channel in
             push parts
               (encodeField 1 WIRE_TYPE.LENGTH_DELIMITED (Bytes channelBytes)))
          channels parts
    | None => parts
    end in
  (* field 2: lora_config *)
  let parts :=
    match Config.lora config with
    | Some lora =>
        let loraBytes := buildLoRaConfig lora in
        push parts (encodeField 2 WIRE_TYPE.LENGTH_DELIMITED (Bytes loraBytes))
    | None => parts
    end in
  concatUint8Arrays parts.

(** ** URL generation *)

Definition generateMeshtasticURL (config : Config.t) : string :=
  let protoBytes := buildChannelSet config in
  let base64 := uint8ArrayToBase64URL protoBytes in
  ("https://meshtastic.org/e/#" ++ base64)%string.

Definition generateHyphaeNetworkURL : string :=
  let config :=
    {| Config.lora := Some HYPHAE_MESH_CONFIG.lora;
       Config.channels := Some [
         {| Channel.index := Some 0;
            Channel.settings := Some
              {| ChannelSettings.channelNum := None;
                 ChannelSettings.name := Some HYPHAE_MESH_CONFIG.channel.name;
                 ChannelSettings.psk := Some HYPHAE_MESH_CONFIG.channel.psk;
                 ChannelSettings.uplinkEnabled :=
                   Some HYPHAE_MESH_CONFIG.channel.uplinkEnabled;
                 ChannelSettings.downlinkEnabled :=
                   Some HYPHAE_MESH_CONFIG.channel.downlinkEnabled |};
            Channel.role := Some 1 |} ] |} in
  generateMeshtasticURL config.

(** ** Crypto utilities *)

(** The secure random source is an unbounded tape of numbers;
    [crypto.getRandomValues(array)] fills [array] from its front and leaves
    the rest of the tape. *)
Definition RandomSource : Type := nat -> Z.

Definition getRandomValues (array : list Z) (random : RandomSource)
  : list Z * RandomSource :=
  (map (fun i => ToUint8 (random i)) (seq 0 (length array)),
   fun i => random (i + length array)%nat).

Definition generateRandomPSK (random : RandomSource) : list Z * RandomSource :=
  getRandomValues (Uint8Array_new 32) random.

(** ** Private channels *)

Module PrivateChannel.
Record t := mk {
  url : string;
  psk : string
}.
End PrivateChannel.

(** [channelName || 'Private']: an omitted or empty name is falsy. *)
Definition nameOrPrivate (channelName : option (list Z)) : list Z :=
  match channelName with
  | Some name => if nonempty name then name else code_units "Private"
  | None => code_units "Private"
  end.

(** The [config] object literal of [generatePrivateChannelURL]. *)
Definition privateChannelConfig (channelName : option (list Z)) (psk : list Z)
  : Config.t :=
  {| Config.lora := Some HYPHAE_MESH_CONFIG.lora;
     Config.channels := Some [
       {| Channel.index := Some 0;
          Channel.settings := Some
            {| ChannelSettings.channelNum := None;
               ChannelSettings.name := Some (nameOrPrivate channelName);
               ChannelSettings.psk := Some psk;
               ChannelSettings.uplinkEnabled := Some false;
               ChannelSettings.downlinkEnabled := Some false |};
          Channel.role := Some 1 |} ] |}.

Definition generatePrivateChannelURL (channelName : option (list Z))
  (random : RandomSource) : PrivateChannel.t * RandomSource :=
  let (psk, random) := generateRandomPSK random in
  let config := privateChannelConfig channelName psk in
  ({| PrivateChannel.url := generateMeshtasticURL config;
      PrivateChannel.psk := uint8ArrayToBase64 psk |},
   random).

(** ** Completion of a call

    A JavaScript call either returns a value or throws.  The body of
    [encodeVarint] holds no [throw], and comparison, the bit operators and
    [push] raise nothing on a Number: every call returns. *)
Inductive completion (A : Type) : Type :=
| Returned (value : A)
| Thrown (message : string).

Arguments Returned {A} value.
Arguments Thrown {A} message.

Definition encodeVarint_call (value : Z) : completion (list Z) :=
  Returned (encodeVarint value).

(** ** Specification vocabulary *)

(** A well-formed [Uint8Array]: every element is a byte. *)
Definition is_byte (b : Z) : Prop := 0 <= b < 256.

Definition is_bytes (l : list Z) : Prop := Forall is_byte l.

(** The base-128 varint of a non-negative integer, as the protocol defines
    it: the 7-bit groups of the value, least significant group first, each
    byte but the last carrying the continuation bit 0x80, and no more groups
    than the value needs. *)
Inductive varint_of : Z -> list Z -> Prop :=
| varint_last (v : Z) :
    0 <= v < 128 -> varint_of v [v]
| varint_more (v : Z) (rest : list Z) :
    128 <= v -> varint_of (v / 128) rest ->
    varint_of v (v mod 128 + 128 :: rest).

(** The number a sequence of 7-bit groups stands for, least significant
    group first. *)
Fixpoint varint_value (bytes : list Z) : Z :=
  match bytes with
  | [] => 0
  | b :: rest => b mod 128 + 128 * varint_value rest
  end.

(** A length-delimited field in the words of the wire contract: the tag
    [(fieldNumber << 3) | 2], the varint of the payload length, the
    payload. *)
Definition length_delimited (fieldNumber : Z) (payload : list Z) : list Z :=
  encodeVarint (Z.lor (Z.shiftl fieldNumber 3) 2)
    ++ encodeVarint (Z.of_nat (length payload))
    ++ payload.

(** An encoded field that begins with the varint of its tag, the tag being
    the number [(fieldNumber << 3) | wireType] of the wire contract, of
    whatever size. *)
Definition begins_with_tag (fieldNumber wireType : Z) (field : list Z) : Prop :=
  exists tagBytes rest,
    varint_of (Z.lor (Z.shiftl fieldNumber 3) wireType) tagBytes
    /\ field = tagBytes ++ rest.

(** A length-delimited field holding [payload]: the varint of the tag, the
    varint of the payload length, the payload, and nothing else. *)
Definition length_delimited_field (fieldNumber : Z) (payload field : list Z)
  : Prop :=
  exists tagBytes lengthBytes,
    varint_of (Z.lor (Z.shiftl fieldNumber 3) 2) tagBytes
    /\ varint_of (Z.of_nat (length payload)) lengthBytes
    /\ field = tagBytes ++ lengthBytes ++ payload.

(** The bytes each field of a ChannelSettings message contributes (field
    table of the wire contract); an omitted field contributes none. *)
Definition field_channelNum (s : ChannelSettings.t) : list Z :=
  match ChannelSettings.channelNum s with
  | Some n => if n >? 0 then encodeUint32 1 n else []
  | None => []
  end.

Definition field_psk (s : ChannelSettings.t) : list Z :=
  match ChannelSettings.psk s with
  | Some p => encodeBytes 2 p
  | None => []
  end.

Definition field_name (s : ChannelSettings.t) : list Z :=
  match ChannelSettings.name s with
  | Some (c :: str) => encodeString 3 (c :: str)
  | _ => []
  end.

Definition field_uplinkEnabled (s : ChannelSettings.t) : list Z :=
  match ChannelSettings.uplinkEnabled s with
  | Some b => encodeBool 5 b
  | None => []
  end.

Definition field_downlinkEnabled (s : ChannelSettings.t) : list Z :=
  match ChannelSettings.downlinkEnabled s with
  | Some b => encodeBool 6 b
  | None => []
  end.

(** Occurrence of a character in a string. *)
Definition occurs (c : ascii) (s : string) : Prop :=
  In c (list_ascii_of_string s).

(** The URL-safe alphabet: letters, digits, [-] and [_]. *)
Definition base64url_alphabet : string :=
  "ABCDEFGHIJKLMNOPQRSTUVWXYZabcdefghijklmnopqrstuvwxyz0123456789-_".

Definition is_base64url_char (c : ascii) : bool :=
  existsb (Ascii.eqb c) (list_ascii_of_string base64url_alphabet).

(** The substitution that makes a base64 character URL-safe, and back. *)
Definition url_safe (c : ascii) : ascii :=
  if Ascii.eqb c "+" then "-"%char
  else if Ascii.eqb c "/" then "_"%char else c.

Definition url_unsafe (c : ascii) : ascii :=
  if Ascii.eqb c "-" then "+"%char
  else if Ascii.eqb c "_" then "/"%char else c.

(** The base URL of a Meshtastic deep link. *)
Definition baseURL : string := "https://meshtastic.org/e/".

(** Modelled from the spec: [fromBase64URL], the decoding half of the
    framer, which the source does not contain.  It is the inverse pipeline:
    a character outside the URL-safe alphabet or a length of 1 modulo 4 is a
    decode error, raised before any byte is decoded; otherwise the padding is
    re-derived from the length modulo 4, [-] and [_] are turned back into [+]
    and [/], and the standard base64 text is decoded. *)
Definition fromBase64URL (s : string) : option (list Z) :=
  let n := String.length s in
  if negb (forallb is_base64url_char (list_ascii_of_string s))
     || (n mod 4 =? 1)%nat
  then None
  else
    let padded :=
      (s ++ string_of_list_ascii (repeat "="%char ((4 - n mod 4) mod 4)))%string in
    let standard := replaceAll "_" "/" (replaceAll "-" "+" padded) in
    base64ToUint8Array standard.

(** * The companion application

    The parts of the nashme.sh application that compute: the crypto
    utilities, the order of the configuration steps, and the choice of a
    channel for a new conversation. *)

From Stdlib Require Import DecimalString.

Module CryptoUtils.

(** [btoa(String.fromCharCode(...array))]: the text the call returns when
    the engine accepts it (see [uint8ArrayToBase64_call]). *)
Definition uint8ArrayToBase64 (array : list Z) : string :=
  btoa (string_of_list_ascii (map fromCharCode array)).

(** The same call with its completion.  The spread passes every element of
    [array] as an argument of its own, and an engine refuses a call with more
    arguments than it has room for with a RangeError.  How many it accepts is
    left to the engine (tens of thousands at least in the engines in use):
    [argumentsLimit] is that number. *)
Definition uint8ArrayToBase64_call (argumentsLimit : nat) (array : list Z)
  : completion string :=
  if (argumentsLimit <? length array)%nat then Thrown "RangeError"
  else Returned (uint8ArrayToBase64 array).

(** [generatePSK(bits = 256)], for an integer [bits].  [bits / 8] need not
    be an integer: the length of [new Uint8Array(bits / 8)] is the quotient
    truncated toward zero, and a length that is negative or above 2^53 - 1
    is a RangeError (an engine may refuse a smaller length for want of
    memory, which is not modelled).  [crypto.getRandomValues] refuses an
    array of more than 65536 bytes with a QuotaExceededError, so the array
    that reaches [uint8ArrayToBase64] has at most 65536 elements, which is
    taken to be within the engine's argument limit. *)
Definition generatePSK (bits : option Z) (random : RandomSource)
  : completion string * RandomSource :=
  let bits := match bits with Some b => b | None => 256 end in
  let bytes := Z.quot bits 8 in
  if (bytes <? 0) || (2 ^ 53 - 1 <? bytes) then (Thrown "RangeError", random)
  else
    let array := Uint8Array_new (Z.to_nat bytes) in
    if 65536 <? bytes then (Thrown "QuotaExceededError", random)
    else
      let (array, random) := getRandomValues array random in
      (Returned (uint8ArrayToBase64 array), random).

(** The characters [.] does not match. *)
Definition is_line_terminator (c : ascii) : bool :=
  let n := charCode c in (n =? 10) || (n =? 13).

(** The longest run of at most [n] characters that [.] matches at the front
    of [s], and what follows it. *)
Fixpoint take_dots (n : nat) (s : list ascii) : list ascii * list ascii :=
  match n, s with
  | S n', c :: rest =>
      if is_line_terminator c then ([], s)
      else let (run, after) := take_dots n' rest in (c :: run, after)
  | _, _ => ([], s)
  end.

(** [s.match(/.{1,5}/g)]: the matches from left to right, each as long as
    it can be; a character at which no match starts is passed over.  The
    empty list stands for [null]. *)
Equations? match_dot_1_5 (s : list ascii) : list (list ascii)
  by wf (length s) lt :=
  match_dot_1_5 [] := [];
  match_dot_1_5 (c :: rest) with is_line_terminator c => {
    | true => match_dot_1_5 rest;
    | false =>
        (c :: fst (take_dots 4 rest))
          :: match_dot_1_5 (snd (take_dots 4 rest)) }.
Proof.
  assert (H : forall n l, (length (snd (take_dots n l)) <= length l)%nat).
  { induction n as [| n IH]; intros [| x l]; simpl; try lia.
    destruct (is_line_terminator x); simpl; [lia |].
    specialize (IH l). destruct (take_dots n l). simpl in *. lia. }
  apply (Nat.le_lt_trans _ (length rest)); [exact (H 4%nat rest) | lia].
Qed.

(** [num.match(/.{1,5}/g)?.join(' ') || num] *)
Definition formatSafetyNumber (num : string) : string :=
  match match_dot_1_5 (list_ascii_of_string num) with
  | [] => num
  | groups => String.concat " " (map string_of_list_ascii groups)
  end.

(** [n.toString()] of an integer (below 10^21 in absolute value). *)
Definition Number_toString (n : Z) : string :=
  NilZero.string_of_int (Z.to_int n).

(** [s.padStart(targetLength, pad)] for a one-character [pad]. *)
Definition padStart (targetLength : nat) (pad : ascii) (s : string) : string :=
  (string_of_list_ascii (repeat pad (targetLength - String.length s)) ++ s)%string.

(** [createSafetyNumber(nodeId, psk)], for two strings.  [digest] is SHA-256
    as [crypto.subtle.digest] computes it, from the bytes of the data to the
    bytes of the hash. *)
Definition createSafetyNumber (digest : list Z -> list Z) (nodeId psk : list Z)
  : string :=
  let combined := nodeId ++ psk in
  let data := TextEncoder_encode combined in
  let hashBuffer := digest data in
  let hashArray := Uint8Array_from hashBuffer in
  substring 0 60
    (String.concat ""
       (map (fun b => padStart 3 "0" (Number_toString b)) hashArray)).

(** [v.toString(16)] for [0 <= v < 16]. *)
Definition hex_digit (v : Z) : ascii :=
  nth (Z.to_nat v) (list_ascii_of_string "0123456789abcdef") "0"%char.

(** [template.replace(/[xy]/g, c => ...)] of [generateUUID].  The random
    source holds, call after call of [Math.random()], the integer
    [Math.random() * 16 | 0], a number from 0 to 15. *)
Fixpoint replace_xy (template : string) (random : RandomSource)
  : string * RandomSource :=
  match template with
  | EmptyString => (EmptyString, random)
  | String c rest =>
      if Ascii.eqb c "x" || Ascii.eqb c "y" then
        let r := random 0%nat mod 16 in
        let v := if Ascii.eqb c "x" then r else bitor (bitand r 0x3) 0x8 in
        let (out, random) := replace_xy rest (fun i => random (S i)) in
        (String (hex_digit v) out, random)
      else
        let (out, random) := replace_xy rest random in
        (String c out, random)
  end.

Definition generateUUID (random : RandomSource) : string * RandomSource :=
  replace_xy "xxxxxxxx-xxxx-4xxx-yxxx-xxxxxxxxxxxx" random.

End CryptoUtils.

(** [array.indexOf(x)] on strings: the first index, or -1. *)
Fixpoint indexOf (l : list string) (x : string) : Z :=
  match l with
  | [] => -1
  | y :: rest =>
      if String.eqb y x then 0
      else let i := indexOf rest x in if i <? 0 then -1 else i + 1
  end.

(** [UIManager.isStepBefore] *)
Definition isStepBefore (step currentStep : string) : bool :=
  let order :=
    ["region"; "radio"; "channel"; "battery"; "position"; "role"; "verify";
     "done"]%string in
  indexOf order step <? indexOf order currentStep.

(** [array.includes(x)] on numbers. *)
Definition includes (l : list Z) (x : Z) : bool := existsb (Z.eqb x) l.

(** The channel [createDM] and [createGroup] choose, from the channel
    indices of the stored conversations:
    [[1, 2, 3, 4, 5, 6, 7].find(i => !usedChannels.includes(i))], and the
    error they throw when there is none. *)
Definition availableChannel (usedChannels : list Z) : completion Z :=
  match find (fun i => negb (includes usedChannels i)) [1; 2; 3; 4; 5; 6; 7] with
  | Some i => Returned i
  | None => Thrown "Maximum conversations reached (7)"
  end.

(** What a character of a generated UUID may be, given the character of
    the template at its place: a hexadecimal digit for [x], one of 8, 9, a,
    b for [y], the template's own character otherwise. *)
Definition uuid_char (template_char c : ascii) : Prop :=
  if Ascii.eqb template_char "x" then
    In c (list_ascii_of_string "0123456789abcdef")
  else if Ascii.eqb template_char "y" then In c (list_ascii_of_string "89ab")
  else c = template_char.

(** * The step wizard of the documentation site

    The closure of [initWizard]: the [.step-content] elements with their ids
    and their class [active], the [.wizard-step] progress elements with their
    classes [active] and [completed], the class [active] of the
    [.wizard-connector] elements, the variable [currentStep], and the URL
    fragment that [history.replaceState] sets.  The three lists are lists of
    different elements; scrolling changes none of this. *)

Module Wizard.

Record step := mkStep {
  id : string;
  active : bool
}.

Record progress := mkProgress {
  progress_active : bool;
  progress_completed : bool
}.

Record t := mk {
  steps : list step;
  progressSteps : list progress;
  connectors : list bool;
  currentStep : Z;
  hash : option string
}.

(** [list.forEach((element, index) => ...)] rewriting each element, with
    indices counted from [start]. *)
Fixpoint forEach_from {A : Type} (start : Z) (f : A -> Z -> A) (l : list A)
  : list A :=
  match l with
  | [] => []
  | x :: rest => f x start :: forEach_from (start + 1) f rest
  end.

Definition forEach {A : Type} (f : A -> Z -> A) (l : list A) : list A :=
  forEach_from 0 f l.

Definition goToStep (stepIndex : Z) (w : t) : t :=
  if (stepIndex <? 0) || (stepIndex >=? Z.of_nat (length (steps w))) then w
  else
    (* step content visibility *)
    let steps :=
      forEach (fun step index => mkStep (id step) (index =? stepIndex))
        (steps w) in
    (* progress indicators *)
    let progressSteps :=
      forEach
        (fun _ index =>
           if index <? stepIndex then mkProgress false true
           else if index =? stepIndex then mkProgress true false
           else mkProgress false false)
        (progressSteps w) in
    (* connectors *)
    let connectors :=
      forEach (fun _ index => index <? stepIndex) (connectors w) in
    let currentStep := stepIndex in
    (* URL hash for deep linking *)
    let hash :=
      match nth_error steps (Z.to_nat currentStep) with
      | Some step =>
          match id step with
          | EmptyString => hash w
          | _ => Some ("#" ++ id step)%string
          end
      | None => hash w
      end in
    mk steps progressSteps connectors currentStep hash.

(** The listeners of the next and back buttons and of the progress steps. *)
Inductive event : Type :=
| Next
| Back
| ClickProgress (index : Z).

Definition handle (w : t) (e : event) : t :=
  match e with
  | Next => goToStep (currentStep w + 1) w
  | Back => goToStep (currentStep w - 1) w
  | ClickProgress index =>
      if index <? currentStep w then goToStep index w else w
  end.

End Wizard.

(** * Properties *)

(** ** Known vectors *)

Section KnownVectors.

Example encodeVarint_300 : encodeVarint 300 = [0xac; 0x02].
Proof. vm_compute. reflexivity. Qed.

Example encodeVarint_max_uint32 :
  encodeVarint (2 ^ 32 - 1) = [0xff; 0xff; 0xff; 0xff; 0x0f].
Proof. vm_compute. reflexivity. Qed.

(** The default public key is [AQ==], as the comment in the source says. *)
Example default_psk_base64 :
  uint8ArrayToBase64 HYPHAE_MESH_CONFIG.channel.psk = "AQ=="%string.
Proof. vm_compute. reflexivity. Qed.

Example base64_man : uint8ArrayToBase64 [77; 97; 110] = "TWFu"%string.
Proof. vm_compute. reflexivity. Qed.

Example base64url_substitutes :
  uint8ArrayToBase64 [251; 255; 254; 1] = "+//+AQ=="%string
  /\ uint8ArrayToBase64URL [251; 255; 254; 1] = "-__-AQ"%string.
Proof. split; vm_compute; reflexivity. Qed.

Example text_encoder_utf8 :
  TextEncoder_encode [0x48; 0xe9; 0x20ac; 0xd83d; 0xde00]
  = [0x48; 0xc3; 0xa9; 0xe2; 0x82; 0xac; 0xf0; 0x9f; 0x98; 0x80].
Proof. vm_compute. reflexivity. Qed.

(** The ChannelSet of the Hyphae network: one channel (index 0, default key,
    uplink and downlink on, role primary), then the LoRa config. *)
Example hyphae_network_url :
  generateHyphaeNetworkURL
  = "https://meshtastic.org/e/#Cg0IABIHEgEBKAEwARgBEgoYASADOAZYAWAe"%string.
Proof. vm_compute. reflexivity. Qed.

End KnownVectors.

(** ** The bit operators on the operands [encodeVarint] gives them *)

Section BitOperators.

Lemma ToInt32_small (x : Z) : - 2 ^ 31 <= x < 2 ^ 31 -> ToInt32 x = x.
Proof.
  intros H. unfold ToInt32. rewrite Z.mod_small; lia.
Qed.

Lemma ToInt32_mod_128 (x : Z) : ToInt32 x mod 128 = x mod 128.
Proof.
  unfold ToInt32.
  pose proof (Z.div_mod (x + 2 ^ 31) (2 ^ 32) ltac:(lia)) as E.
  replace ((x + 2 ^ 31) mod 2 ^ 32 - 2 ^ 31)
    with (x + (- (33554432 * ((x + 2 ^ 31) / 2 ^ 32))) * 128) by lia.
  apply Z.mod_add. lia.
Qed.

Lemma bitand_0x7f (x : Z) : bitand x 0x7f = x mod 128.
Proof.
  unfold bitand. rewrite (ToInt32_small 127) by lia.
  change 127 with (Z.ones 7). rewrite Z.land_ones by lia.
  apply ToInt32_mod_128.
Qed.

Lemma bitor_0x80 (a : Z) : 0 <= a < 128 -> bitor a 0x80 = a + 128.
Proof.
  intros H. unfold bitor. rewrite !ToInt32_small by lia.
  assert (E : Z.land a 128 = 0).
  { rewrite <- (Z.mod_small a (2 ^ 7)) by lia.
    rewrite <- Z.land_ones by lia.
    rewrite <- Z.land_assoc. apply Z.land_0_r. }
  pose proof (Z.add_lor_land a 128). lia.
Qed.

Lemma ushr_7 (x : Z) : ushr x 7 = x mod 2 ^ 32 / 128.
Proof.
  unfold ushr, ToUint32.
  change (Z.land (7 mod 2 ^ 32) 31) with 7.
  apply Z.shiftr_div_pow2. lia.
Qed.

End BitOperators.

(** ** [encodeVarint] *)

Section Varint.

Lemma is_bytes_from (l : list Z) : is_bytes (Uint8Array_from l).
Proof.
  unfold is_bytes, Uint8Array_from, ToUint8, is_byte.
  apply Forall_forall. intros b Hb. apply in_map_iff in Hb.
  destruct Hb as [x [<- _]]. apply Z.mod_pos_bound. lia.
Qed.

Lemma from_bytes (l : list Z) : is_bytes l -> Uint8Array_from l = l.
Proof.
  unfold is_bytes, Uint8Array_from, ToUint8, is_byte.
  induction 1 as [| b l Hb _ IH]; simpl; [reflexivity |].
  rewrite IH, Z.mod_small by lia. reflexivity.
Qed.

Lemma is_bytes_app (l1 l2 : list Z) :
  is_bytes l1 -> is_bytes l2 -> is_bytes (l1 ++ l2).
Proof.
  unfold is_bytes. intros H1 H2. apply Forall_app. split; assumption.
Qed.

(** One turn of the loop, in arithmetic. *)
Lemma encodeVarint_loop_step (value : Z) (bytes : list Z) :
  encodeVarint_loop value bytes =
  if 127 <? value
  then encodeVarint_loop (value mod 2 ^ 32 / 128)
         (bytes ++ [value mod 128 + 128])
  else bytes ++ [value mod 128].
Proof.
  rewrite encodeVarint_loop_equation_1.
  unfold encodeVarint_loop_unfold_clause_1.
  assert (Hr : 0 <= value mod 128 < 128) by (apply Z.mod_pos_bound; lia).
  destruct (Z_lt_dec 127 value) as [Hlt | Hge].
  - rewrite ushr_7, bitand_0x7f, bitor_0x80 by assumption.
    destruct (Z.ltb_spec 127 value); [reflexivity | lia].
  - rewrite bitand_0x7f.
    destruct (Z.ltb_spec 127 value); [lia | reflexivity].
Qed.

(** The value of the next turn is smaller, and still non-negative. *)
Lemma next_value_bounds (value : Z) :
  127 < value -> 0 <= value mod 2 ^ 32 / 128 < value.
Proof.
  intros H.
  assert (Hm : 0 <= value mod 2 ^ 32 <= value).
  { split; [apply Z.mod_pos_bound; lia | apply Z.mod_le; lia]. }
  split; [apply Z.div_pos; lia |].
  apply Z.div_lt_upper_bound; lia.
Qed.

(** The bytes pushed so far are a prefix of the result. *)
Lemma encodeVarint_loop_acc (value : Z) (bytes : list Z) :
  encodeVarint_loop value bytes = bytes ++ encodeVarint_loop value [].
Proof.
  revert bytes.
  induction value as [value IH] using (well_founded_induction (Z.lt_wf 0)).
  intros bytes.
  rewrite (encodeVarint_loop_step value bytes).
  rewrite (encodeVarint_loop_step value []).
  destruct (Z.ltb_spec 127 value) as [Hlt | Hge]; [| reflexivity].
  pose proof (next_value_bounds value Hlt) as Hb.
  rewrite (IH _ Hb (bytes ++ [value mod 128 + 128])).
  rewrite (IH _ Hb ([] ++ [value mod 128 + 128])).
  rewrite <- app_assoc. reflexivity.
Qed.

Lemma encodeVarint_loop_bytes (value : Z) :
  is_bytes (encodeVarint_loop value []).
Proof.
  induction value as [value IH] using (well_founded_induction (Z.lt_wf 0)).
  rewrite encodeVarint_loop_step.
  assert (Hr : 0 <= value mod 128 < 128) by (apply Z.mod_pos_bound; lia).
  destruct (Z.ltb_spec 127 value) as [Hlt | Hge].
  - rewrite encodeVarint_loop_acc.
    apply is_bytes_app; [| apply IH, next_value_bounds, Hlt].
    repeat constructor; unfold is_byte; lia.
  - repeat constructor; unfold is_byte; lia.
Qed.

(** [encodeVarint] on a value that fits seven bits, and on a larger one. *)
Lemma encodeVarint_small (value : Z) :
  value <= 127 -> encodeVarint value = [value mod 128].
Proof.
  intros H. unfold encodeVarint.
  rewrite from_bytes by apply encodeVarint_loop_bytes.
  rewrite encodeVarint_loop_step.
  destruct (Z.ltb_spec 127 value); [lia | reflexivity].
Qed.

Lemma encodeVarint_large (value : Z) :
  127 < value ->
  encodeVarint value =
  value mod 128 + 128 :: encodeVarint (value mod 2 ^ 32 / 128).
Proof.
  intros H. unfold encodeVarint.
  rewrite !from_bytes by apply encodeVarint_loop_bytes.
  rewrite encodeVarint_loop_step.
  destruct (Z.ltb_spec 127 value); [| lia].
  rewrite encodeVarint_loop_acc. reflexivity.
Qed.

Lemma encodeVarint_bytes (value : Z) : is_bytes (encodeVarint value).
Proof. apply is_bytes_from. Qed.

(** The relation [varint_of] says what the specification says in words. *)
Lemma varint_of_value (v : Z) (bytes : list Z) :
  varint_of v bytes -> varint_value bytes = v.
Proof.
  induction 1 as [v Hv | v rest Hv _ IH]; cbn [varint_value].
  - rewrite Z.mod_small; lia.
  - rewrite IH.
    replace (v mod 128 + 128) with (v mod 128 + 1 * 128) by lia.
    rewrite Z.mod_add, Z.mod_mod by lia.
    pose proof (Z.div_mod v 128 ltac:(lia)). lia.
Qed.

Lemma varint_of_continuation (v : Z) (bytes : list Z) :
  varint_of v bytes ->
  Forall (fun b => 128 <= b < 256) (removelast bytes)
  /\ 0 <= last bytes 0 < 128
  /\ bytes <> [].
Proof.
  induction 1 as [v Hv | v rest Hv Hrest IH].
  - simpl. repeat split; try lia; [constructor | discriminate].
  - destruct IH as [Hall [Hlast Hne]].
    destruct rest as [| b rest']; [congruence |].
    repeat split; try discriminate.
    + change (removelast (v mod 128 + 128 :: b :: rest'))
        with (v mod 128 + 128 :: removelast (b :: rest')).
      constructor; [| exact Hall].
      pose proof (Z.mod_pos_bound v 128 ltac:(lia)). lia.
    + change (last (v mod 128 + 128 :: b :: rest') 0)
        with (last (b :: rest') 0). lia.
    + change (last (v mod 128 + 128 :: b :: rest') 0)
        with (last (b :: rest') 0). lia.
Qed.

(** A number has one varint. *)
Lemma varint_of_functional (v : Z) (bytes1 bytes2 : list Z) :
  varint_of v bytes1 -> varint_of v bytes2 -> bytes1 = bytes2.
Proof.
  intros H1. revert bytes2.
  induction H1 as [v Hv | v rest Hv _ IH]; intros bytes2 H2;
    inversion H2; subst; try lia; [reflexivity |].
  f_equal. apply IH. assumption.
Qed.

(** Within 32 bits [encodeVarint] computes the varint. *)
Lemma encodeVarint_varint_of (value : Z) :
  0 <= value < 2 ^ 32 -> varint_of value (encodeVarint value).
Proof.
  induction value as [value IH] using (well_founded_induction (Z.lt_wf 0)).
  intros Hr.
  destruct (Z_lt_dec 127 value) as [Hlt | Hge].
  - rewrite encodeVarint_large by assumption.
    rewrite (Z.mod_small value (2 ^ 32)) by lia.
    apply varint_more; [lia |].
    apply IH.
    + split; [apply Z.div_pos; lia | apply Z.div_lt_upper_bound; lia].
    + split; [apply Z.div_pos; lia | apply Z.div_lt_upper_bound; lia].
  - rewrite encodeVarint_small, Z.mod_small by lia.
    apply varint_last. lia.
Qed.

End Varint.

(** ** [concatUint8Arrays] *)

Section Concat.

Lemma totalLength_concat (arrays : list (list Z)) (n : nat) :
  fold_left (fun sum arr => (sum + length arr)%nat) arrays n
  = (n + length (concat arrays))%nat.
Proof.
  revert n. induction arrays as [| arr arrays IH]; intros n; simpl.
  - lia.
  - rewrite IH, length_app. lia.
Qed.

(** Loop invariant: the bytes written so far, then the zeros still to be
    overwritten by [todo], then the part of the array beyond them; the offset
    is the number of bytes written. *)
Lemma concat_loop (todo : list (list Z)) (written beyond : list Z) :
  fold_left concat_step todo
    (written ++ Uint8Array_new (length (concat todo)) ++ beyond,
     length written)
  = (written ++ Uint8Array_from (concat todo) ++ beyond,
     (length written + length (concat todo))%nat).
Proof.
  revert written.
  induction todo as [| arr todo IH]; intros written; simpl.
  - rewrite Nat.add_0_r. reflexivity.
  - unfold Uint8Array_set, Uint8Array_new.
    rewrite firstn_app, firstn_all, Nat.sub_diag, firstn_O, app_nil_r.
    rewrite skipn_app, skipn_all2 by lia.
    replace (length written + length arr - length written)%nat
      with (length arr) by lia.
    rewrite length_app, repeat_app, <- app_assoc, skipn_app, skipn_all2
      by (rewrite repeat_length; lia).
    rewrite repeat_length, Nat.sub_diag, skipn_O. simpl app at 1.
    specialize (IH (written ++ map ToUint8 arr)).
    rewrite length_app, length_map, <- app_assoc in IH.
    unfold Uint8Array_new in IH. simpl app. rewrite IH.
    unfold Uint8Array_from. rewrite map_app, <- !app_assoc.
    f_equal. lia.
Qed.

(** Every [set] of the loop stays inside the array. *)
Lemma concat_offsets_in_bounds (before after : list (list Z)) (arr : list Z) :
  let totalLength :=
    fold_left (fun sum a => (sum + length a)%nat) (before ++ arr :: after) 0%nat
  in
  let (result, offset) :=
    fold_left concat_step before (Uint8Array_new totalLength, 0%nat) in
  (offset + length arr <= length result)%nat.
Proof.
  cbv zeta. rewrite totalLength_concat, concat_app. simpl.
  rewrite !length_app.
  unfold Uint8Array_new at 1. rewrite repeat_app.
  pose proof
    (concat_loop before []
       (repeat 0 (length arr + length (concat after)))) as E.
  simpl in E. unfold Uint8Array_new in E. rewrite E.
  rewrite length_app. unfold Uint8Array_from.
  rewrite length_map, repeat_length. lia.
Qed.

(** [concatUint8Arrays] is concatenation, byte for byte. *)
Lemma concatUint8Arrays_concat (arrays : list (list Z)) :
  concatUint8Arrays arrays = Uint8Array_from (concat arrays).
Proof.
  unfold concatUint8Arrays.
  rewrite totalLength_concat. simpl.
  pose proof (concat_loop arrays [] []) as E. simpl in E.
  rewrite !app_nil_r in E. rewrite E. reflexivity.
Qed.

Lemma concatUint8Arrays_bytes (arrays : list (list Z)) :
  is_bytes (concatUint8Arrays arrays).
Proof. rewrite concatUint8Arrays_concat. apply is_bytes_from. Qed.

Lemma is_bytes_concat (arrays : list (list Z)) :
  Forall is_bytes arrays -> is_bytes (concat arrays).
Proof.
  induction 1 as [| arr arrays Harr _ IH]; simpl.
  - constructor.
  - apply is_bytes_app; assumption.
Qed.

Lemma concatUint8Arrays_of_bytes (arrays : list (list Z)) :
  Forall is_bytes arrays -> concatUint8Arrays arrays = concat arrays.
Proof.
  intros H. rewrite concatUint8Arrays_concat.
  apply from_bytes, is_bytes_concat, H.
Qed.

End Concat.

(** ** [encodeField] and the typed encoders *)

Section Fields.

(** In the range of 28 bits, [fieldNumber << 3] is multiplication by 8. *)
Lemma shl_3 (f : Z) : 0 <= f < 2 ^ 28 -> shl f 3 = 8 * f.
Proof.
  intros H. unfold shl, ToUint32.
  change (Z.land (3 mod 2 ^ 32) 31) with 3.
  rewrite (ToInt32_small f) by lia.
  rewrite Z.shiftl_mul_pow2 by lia.
  rewrite ToInt32_small; lia.
Qed.

Lemma land_shiftl_3 (f w : Z) : 0 <= w < 8 -> Z.land (Z.shiftl f 3) w = 0.
Proof.
  intros H.
  rewrite <- (Z.mod_small w (2 ^ 3)) by lia.
  rewrite <- Z.land_ones by lia.
  rewrite (Z.land_comm w), Z.land_assoc, Z.land_ones by lia.
  rewrite Z.shiftl_mul_pow2, Z.mod_mul by lia.
  apply Z.land_0_l.
Qed.

(** The tag of a field, for field numbers below 2^28 and 3-bit wire types:
    the JavaScript expression has its arithmetic value. *)
Lemma tag_value (f w : Z) :
  0 <= f < 2 ^ 28 -> 0 <= w < 8 ->
  bitor (shl f 3) w = Z.lor (Z.shiftl f 3) w
  /\ bitor (shl f 3) w = 8 * f + w.
Proof.
  intros Hf Hw. rewrite shl_3 by assumption.
  unfold bitor. rewrite !ToInt32_small by lia.
  assert (E : Z.shiftl f 3 = 8 * f) by (rewrite Z.shiftl_mul_pow2; lia).
  rewrite <- E. split; [reflexivity |].
  pose proof (Z.add_lor_land (Z.shiftl f 3) w) as A.
  rewrite land_shiftl_3 in A by assumption. lia.
Qed.

Lemma from_app_bytes (l1 l2 : list Z) :
  is_bytes l1 -> Uint8Array_from (l1 ++ l2) = l1 ++ Uint8Array_from l2.
Proof.
  intros H. unfold Uint8Array_from. rewrite map_app.
  f_equal. apply from_bytes, H.
Qed.

Lemma encodeField_varint (f v : Z) :
  encodeField f WIRE_TYPE.VARINT (Number v)
  = encodeVarint (bitor (shl f 3) WIRE_TYPE.VARINT) ++ encodeVarint v.
Proof.
  unfold encodeField.
  change (WIRE_TYPE.VARINT =? WIRE_TYPE.VARINT) with true. cbv iota.
  cbn [data_number].
  rewrite from_app_bytes by apply encodeVarint_bytes.
  rewrite (from_bytes (encodeVarint v)) by apply encodeVarint_bytes.
  reflexivity.
Qed.

Lemma encodeField_length_delimited (f : Z) (payload : list Z) :
  encodeField f WIRE_TYPE.LENGTH_DELIMITED (Bytes payload)
  = encodeVarint (bitor (shl f 3) WIRE_TYPE.LENGTH_DELIMITED)
      ++ encodeVarint (Z.of_nat (length payload))
      ++ Uint8Array_from payload.
Proof.
  unfold encodeField.
  change (WIRE_TYPE.LENGTH_DELIMITED =? WIRE_TYPE.VARINT) with false.
  change (WIRE_TYPE.LENGTH_DELIMITED =? WIRE_TYPE.LENGTH_DELIMITED) with true.
  cbv iota. cbn [data_length data_elements].
  rewrite !from_app_bytes by apply encodeVarint_bytes.
  reflexivity.
Qed.

(** Whatever the wire type and the data, the field starts with its tag. *)
Lemma encodeField_tag_first (f w : Z) (data : field_data) :
  exists rest,
    encodeField f w data = encodeVarint (bitor (shl f 3) w) ++ rest.
Proof.
  unfold encodeField.
  destruct (w =? WIRE_TYPE.VARINT);
    [| destruct (w =? WIRE_TYPE.LENGTH_DELIMITED)].
  - rewrite from_app_bytes by apply encodeVarint_bytes. eauto.
  - rewrite from_app_bytes by apply encodeVarint_bytes. eauto.
  - exists []. rewrite app_nil_r. reflexivity.
Qed.

Lemma encodeField_bytes (f w : Z) (data : field_data) :
  is_bytes (encodeField f w data).
Proof.
  unfold encodeField.
  destruct (w =? WIRE_TYPE.VARINT);
    [| destruct (w =? WIRE_TYPE.LENGTH_DELIMITED)];
    apply is_bytes_from.
Qed.

End Fields.

(** ** The message builders as concatenations of fields *)

Section Builders.

Local Opaque encodeField.

(** A builder's [parts] hold encoded fields only. *)
Ltac parts_are_bytes :=
  repeat (apply Forall_cons || apply Forall_nil);
  unfold encodeUint32, encodeBytes, encodeString, encodeBool;
  try apply encodeField_bytes.

Lemma buildChannelSettings_fields (s : ChannelSettings.t) :
  buildChannelSettings s
  = field_channelNum s ++ field_psk s ++ field_name s
      ++ field_uplinkEnabled s ++ field_downlinkEnabled s.
Proof.
  unfold buildChannelSettings, field_channelNum, field_psk, field_name,
    field_uplinkEnabled, field_downlinkEnabled, push.
  destruct s as [cn p nm up dn]. cbn [ChannelSettings.channelNum
    ChannelSettings.psk ChannelSettings.name ChannelSettings.uplinkEnabled
    ChannelSettings.downlinkEnabled].
  destruct cn as [n |]; [destruct (n >? 0) |];
    destruct p as [p |]; destruct nm as [[| c str] |];
    destruct up as [up |]; destruct dn as [dn |];
    cbn [nonempty app];
    (rewrite concatUint8Arrays_of_bytes by parts_are_bytes);
    cbn [concat app]; rewrite ?app_nil_r; reflexivity.
Qed.

(** The submessages [buildChannelSet] pushes, for a list of channels. *)
Lemma channels_forEach (channels : list Channel.t) (parts : list (list Z)) :
  fold_left
    (fun parts channel =>
       let channelBytes := buildChannel channel in
       push parts
         (encodeField 1 WIRE_TYPE.LENGTH_DELIMITED (Bytes channelBytes)))
    channels parts
  = parts
      ++ map (fun channel =>
                encodeField 1 WIRE_TYPE.LENGTH_DELIMITED
                  (Bytes (buildChannel channel)))
           channels.
Proof.
  revert parts. induction channels as [| ch channels IH]; intros parts.
  - simpl. rewrite app_nil_r. reflexivity.
  - cbn [fold_left map]. rewrite IH. unfold push.
    rewrite <- app_assoc. reflexivity.
Qed.

Lemma buildChannel_bytes (channel : Channel.t) :
  is_bytes (buildChannel channel).
Proof. apply concatUint8Arrays_bytes. Qed.

Lemma buildLoRaConfig_bytes (lora : LoRa.t) : is_bytes (buildLoRaConfig lora).
Proof. apply concatUint8Arrays_bytes. Qed.

Lemma buildChannelSet_bytes (config : Config.t) :
  is_bytes (buildChannelSet config).
Proof. apply concatUint8Arrays_bytes. Qed.

Lemma buildChannelSet_fields (config : Config.t) :
  buildChannelSet config
  = concat
      (map (fun channel =>
              encodeField 1 WIRE_TYPE.LENGTH_DELIMITED
                (Bytes (buildChannel channel)))
         (match Config.channels config with
          | Some channels => channels
          | None => []
          end))
    ++ match Config.lora config with
       | Some lora =>
           encodeField 2 WIRE_TYPE.LENGTH_DELIMITED
             (Bytes (buildLoRaConfig lora))
       | None => []
       end.
Proof.
  unfold buildChannelSet.
  destruct config as [chs lo]. cbn [Config.channels Config.lora].
  assert (H : Forall is_bytes
                (map (fun channel =>
                        encodeField 1 WIRE_TYPE.LENGTH_DELIMITED
                          (Bytes (buildChannel channel)))
                   (match chs with Some channels => channels | None => [] end))).
  { apply Forall_forall. intros x Hx. apply in_map_iff in Hx.
    destruct Hx as [ch [<- _]]. apply encodeField_bytes. }
  destruct chs as [channels |]; destruct lo as [lora |];
    rewrite ?channels_forEach; unfold push; cbn [app];
    (rewrite concatUint8Arrays_of_bytes
       by (try (apply Forall_app; split); try exact H; parts_are_bytes));
    rewrite ?concat_app; cbn [concat map app]; rewrite ?app_nil_r;
    reflexivity.
Qed.

End Builders.

(** ** The claims on the varint codec *)

Section VarintClaims.

(** Builds a derivation of [varint_of] for a literal number and byte list. *)
Ltac varint_literal :=
  repeat
    (first
       [ apply varint_last; lia
       | match goal with
         | |- varint_of ?v (?b :: ?rest) =>
             change b with (v mod 128 + 128);
             apply varint_more; [lia |];
             let q := eval vm_compute in (v / 128) in
             change (v / 128) with q
         end ]).

(** Beyond 32 bits the result is never the varint of the input: the first
    [>>>] keeps the low 32 bits only. *)
Lemma encodeVarint_varint_of_inv (value : Z) :
  varint_of value (encodeVarint value) -> 0 <= value < 2 ^ 32.
Proof.
  intros H.
  assert (Hnn : 0 <= value) by (inversion H; lia).
  split; [exact Hnn |].
  destruct (Z_lt_dec value (2 ^ 32)) as [| Hbig]; [assumption | exfalso].
  rewrite encodeVarint_large in H by lia.
  inversion H as [v Hv E | v rest Hv Hrest E1]; subst; [lia |].
  change (Z.pow_pos 2 32) with (2 ^ 32) in Hrest.
  pose proof (next_value_bounds value ltac:(lia)) as Hb.
  assert (Hsmall : value mod 2 ^ 32 / 128 < 2 ^ 25).
  { apply Z.div_lt_upper_bound; [lia |].
    pose proof (Z.mod_pos_bound value (2 ^ 32) ltac:(lia)). lia. }
  pose proof (encodeVarint_varint_of (value mod 2 ^ 32 / 128) ltac:(lia)) as Hok.
  apply varint_of_value in Hrest. apply varint_of_value in Hok.
  assert (2 ^ 25 <= value / 128) by (apply Z.div_le_lower_bound; lia).
  lia.
Qed.

(** C1, as stated, fails: 2^32 lies in the 64-bit range, its varint has
    five bytes, and [encodeVarint] returns the two bytes [0x80 0x00]. *)
Lemma encodeVarint_uint64_counterexample :
  0 <= 2 ^ 32 <= 2 ^ 64 - 1
  /\ encodeVarint (2 ^ 32) = [128; 0]
  /\ varint_of (2 ^ 32) [128; 128; 128; 128; 16]
  /\ ~ varint_of (2 ^ 32) (encodeVarint (2 ^ 32)).
Proof.
  split; [lia |]. split; [vm_compute; reflexivity |].
  split; [varint_literal |].
  intros H. apply encodeVarint_varint_of_inv in H. lia.
Qed.

(** C1 (amended).  For every integer [value] with [0 <= value < 2^32],
    [encodeVarint value] is the base-128 varint of [value]: its 7-bit groups
    least significant first, the continuation bit set on every byte except
    the last, and the groups read back give [value]. *)
Theorem encodeVarint_uint32 (value : Z) :
  0 <= value < 2 ^ 32 ->
  varint_of value (encodeVarint value)
  /\ varint_value (encodeVarint value) = value
  /\ Forall (fun b => 128 <= b < 256) (removelast (encodeVarint value))
  /\ 0 <= last (encodeVarint value) 0 < 128.
Proof.
  intros H.
  pose proof (encodeVarint_varint_of value H) as Hv.
  split; [exact Hv |].
  split; [apply varint_of_value, Hv |].
  apply varint_of_continuation in Hv. tauto.
Qed.

Lemma encodeVarint_uint32_witness :
  0 <= 300 < 2 ^ 32
  /\ varint_of 300 (encodeVarint 300)
  /\ varint_value (encodeVarint 300) = 300
  /\ Forall (fun b => 128 <= b < 256) (removelast (encodeVarint 300))
  /\ 0 <= last (encodeVarint 300) 0 < 128.
Proof.
  split; [lia | apply (encodeVarint_uint32 300); lia].
Defined.

(** C2, as stated, fails: on the negative input -1 the call returns, and
    what it returns is the well-formed encoding of 127. *)
Lemma encodeVarint_negative_counterexample :
  -1 < 0
  /\ encodeVarint_call (-1) = Returned [127]
  /\ encodeVarint (-1) = encodeVarint 127
  /\ varint_of 127 (encodeVarint (-1)).
Proof.
  split; [lia |]. split; [vm_compute; reflexivity |].
  split; [vm_compute; reflexivity |].
  change (encodeVarint (-1)) with [127]. apply varint_last. lia.
Qed.

(** C2 (amended).  For every negative integer input [encodeVarint] raises no
    error: the loop is skipped and the call returns the single byte
    [value & 0x7f], the low seven bits of the two's complement of the
    value. *)
Theorem encodeVarint_negative_returns (value : Z) :
  value < 0 ->
  encodeVarint_call value = Returned [value mod 128]
  /\ 0 <= value mod 128 < 128.
Proof.
  intros H. unfold encodeVarint_call.
  rewrite encodeVarint_small by lia.
  split; [reflexivity | apply Z.mod_pos_bound; lia].
Qed.

Lemma encodeVarint_negative_returns_witness :
  -300 < 0
  /\ encodeVarint_call (-300) = Returned [(-300) mod 128]
  /\ 0 <= (-300) mod 128 < 128.
Proof.
  split; [lia | apply (encodeVarint_negative_returns (-300)); lia].
Defined.

End VarintClaims.

(** ** The claims on fields and message builders *)

Section MessageClaims.

Local Opaque encodeField.

Lemma length_delimited_field_encodeField (f : Z) (payload : list Z) :
  0 <= f < 2 ^ 28 -> is_bytes payload -> Z.of_nat (length payload) < 2 ^ 32 ->
  length_delimited_field f payload
    (encodeField f WIRE_TYPE.LENGTH_DELIMITED (Bytes payload)).
Proof.
  intros Hf Hp Hlen.
  destruct (tag_value f WIRE_TYPE.LENGTH_DELIMITED Hf) as [E1 E2];
    [unfold WIRE_TYPE.LENGTH_DELIMITED; lia |].
  exists (encodeVarint (bitor (shl f 3) WIRE_TYPE.LENGTH_DELIMITED)),
    (encodeVarint (Z.of_nat (length payload))).
  split.
  { change 2 with WIRE_TYPE.LENGTH_DELIMITED. rewrite <- E1.
    apply encodeVarint_varint_of. rewrite E2.
    unfold WIRE_TYPE.LENGTH_DELIMITED. lia. }
  split; [apply encodeVarint_varint_of; lia |].
  rewrite encodeField_length_delimited, (from_bytes payload Hp). reflexivity.
Qed.

(** C5, as stated, fails: 2^28 is a field number of the protocol (they go up
    to 2^29 - 1) and its tag 2^31 has the five-byte varint
    [0x80 0x80 0x80 0x80 0x08], but [encodeField] starts with the byte 0:
    [<<] is a 32-bit operator, [2^28 << 3] is -2^31, and [encodeVarint]
    returns the low seven bits of a negative number. *)
Lemma encodeField_tag_counterexample :
  0 < 2 ^ 28 < 2 ^ 29
  /\ encodeField (2 ^ 28) WIRE_TYPE.VARINT (Number 1) = [0; 1]
  /\ varint_of (Z.lor (Z.shiftl (2 ^ 28) 3) WIRE_TYPE.VARINT)
       [128; 128; 128; 128; 8]
  /\ ~ begins_with_tag (2 ^ 28) WIRE_TYPE.VARINT
         (encodeField (2 ^ 28) WIRE_TYPE.VARINT (Number 1)).
Proof.
  assert (Hv : varint_of (Z.lor (Z.shiftl (2 ^ 28) 3) WIRE_TYPE.VARINT)
                 [128; 128; 128; 128; 8]).
  { change (Z.lor (Z.shiftl (2 ^ 28) 3) WIRE_TYPE.VARINT) with (2 ^ 31).
    change [128; 128; 128; 128; 8] with (encodeVarint (2 ^ 31)).
    apply encodeVarint_varint_of. lia. }
  assert (He : encodeField (2 ^ 28) WIRE_TYPE.VARINT (Number 1) = [0; 1])
    by (vm_compute; reflexivity).
  split; [lia |]. split; [exact He |]. split; [exact Hv |].
  intros [tagBytes [rest [Htag Hfield]]].
  rewrite (varint_of_functional _ _ _ Htag Hv), He in Hfield.
  discriminate Hfield.
Qed.

(** C5 (amended).  For every field number from 0 to 2^28 - 1 and every wire
    type from 0 to 7 the tag [(fieldNumber << 3) | wireType] is the number
    [8 * fieldNumber + wireType] and the encoded field begins with its
    base-128 varint (for the length-delimited type the data is an array: on a
    Number the source throws).  A length-delimited field with a payload of
    fewer than 2^32 bytes is the varint of the tag, the varint of the payload
    length, the payload; byte blobs, strings (as their UTF-8 bytes) and the
    nested ChannelSettings of a Channel all take this one form. *)
Theorem encodeField_wire_format
  (fieldNumber wireType : Z) (data : field_data) (payload : list Z) :
  0 <= fieldNumber < 2 ^ 28 -> 0 <= wireType < 8 ->
  is_bytes payload -> Z.of_nat (length payload) < 2 ^ 32 ->
  Z.lor (Z.shiftl fieldNumber 3) wireType = 8 * fieldNumber + wireType
  /\ ((wireType = WIRE_TYPE.LENGTH_DELIMITED ->
       exists bytes, data = Bytes bytes) ->
      begins_with_tag fieldNumber wireType
        (encodeField fieldNumber wireType data))
  /\ length_delimited_field fieldNumber payload
       (encodeField fieldNumber WIRE_TYPE.LENGTH_DELIMITED (Bytes payload))
  /\ length_delimited_field fieldNumber payload
       (encodeBytes fieldNumber payload)
  /\ (forall str,
        Z.of_nat (length (TextEncoder_encode str)) < 2 ^ 32 ->
        length_delimited_field fieldNumber (TextEncoder_encode str)
          (encodeString fieldNumber str))
  /\ (forall settings,
        Z.of_nat (length (buildChannelSettings settings)) < 2 ^ 32 ->
        length_delimited_field 2 (buildChannelSettings settings)
          (buildChannel (Channel.mk None (Some settings) None))).
Proof.
  intros Hf Hw Hp Hlen.
  destruct (tag_value fieldNumber wireType Hf Hw) as [E1 E2].
  split; [rewrite <- E1; exact E2 |].
  split.
  { intros _.
    destruct (encodeField_tag_first fieldNumber wireType data) as [rest E].
    exists (encodeVarint (bitor (shl fieldNumber 3) wireType)), rest.
    split; [| exact E].
    rewrite <- E1. apply encodeVarint_varint_of. lia. }
  split; [apply length_delimited_field_encodeField; assumption |].
  split; [apply length_delimited_field_encodeField; assumption |].
  split.
  { intros str Hstr. apply length_delimited_field_encodeField;
      [assumption | apply is_bytes_from | assumption]. }
  intros settings Hs.
  assert (E : buildChannel (Channel.mk None (Some settings) None)
              = encodeField 2 WIRE_TYPE.LENGTH_DELIMITED
                  (Bytes (buildChannelSettings settings))).
  { unfold buildChannel. cbn [Channel.index Channel.settings Channel.role].
    cbv zeta. unfold push. cbn [app].
    rewrite concatUint8Arrays_of_bytes.
    - cbn [concat]. apply app_nil_r.
    - constructor; [apply encodeField_bytes | constructor]. }
  rewrite E. apply length_delimited_field_encodeField;
    [lia | apply concatUint8Arrays_bytes | assumption].
Qed.

Lemma encodeField_wire_format_witness :
  0 <= 2 < 2 ^ 28 /\ 0 <= 2 < 8
  /\ is_bytes [1] /\ Z.of_nat (length [1]) < 2 ^ 32
  /\ length_delimited_field 2 [1]
       (encodeField 2 WIRE_TYPE.LENGTH_DELIMITED (Bytes [1])).
Proof.
  assert (H : is_bytes [1]).
  { constructor; [unfold is_byte; lia | constructor]. }
  split; [lia |]. split; [lia |]. split; [exact H |].
  split; [simpl; lia |].
  apply (encodeField_wire_format 2 2 (Bytes [1]) [1]);
    [lia | lia | exact H | simpl; lia].
Defined.

(** The field used by C3, spelled out. *)
Lemma encodeUint32_1_3 : encodeUint32 1 3 = [8; 3].
Proof. vm_compute. reflexivity. Qed.

(** C3.  Whatever the other properties, a ChannelSettings with
    [channelNum: 0] encodes to exactly the bytes of the same settings without
    [channelNum] (field 1 contributes no byte), and with [channelNum: 3] the
    encoding is field 1, the tag byte 0x08 followed by varint(3), in front of
    those same bytes. *)
Theorem channelNum_omission
  (psk : option (list Z)) (name : option (list Z))
  (uplinkEnabled downlinkEnabled : option bool) :
  let settings channelNum :=
    ChannelSettings.mk channelNum psk name uplinkEnabled downlinkEnabled in
  field_channelNum (settings (Some 0)) = []
  /\ buildChannelSettings (settings (Some 0))
     = buildChannelSettings (settings None)
  /\ buildChannelSettings (settings None)
     = field_psk (settings None) ++ field_name (settings None)
         ++ field_uplinkEnabled (settings None)
         ++ field_downlinkEnabled (settings None)
  /\ field_channelNum (settings (Some 3))
     = encodeVarint (Z.lor (Z.shiftl 1 3) WIRE_TYPE.VARINT) ++ encodeVarint 3
  /\ encodeVarint 3 = [3]
  /\ varint_of 3 (encodeVarint 3)
  /\ buildChannelSettings (settings (Some 3))
     = [8; 3] ++ buildChannelSettings (settings None).
Proof.
  intros settings.
  split; [reflexivity |].
  split; [rewrite !buildChannelSettings_fields; reflexivity |].
  split; [rewrite buildChannelSettings_fields; reflexivity |].
  split; [vm_compute; reflexivity |].
  split; [vm_compute; reflexivity |].
  split; [apply encodeVarint_varint_of; lia |].
  rewrite !buildChannelSettings_fields.
  unfold field_channelNum at 1. subst settings.
  cbn [ChannelSettings.channelNum].
  change (3 >? 0) with true. cbv iota.
  rewrite encodeUint32_1_3. reflexivity.
Qed.

(** C10.  Whatever the other properties, a ChannelSettings whose name is the
    empty string encodes to exactly the bytes of the same settings without a
    name: field 3 contributes no byte, and the output is made of fields 1, 2,
    5 and 6 only. *)
Theorem empty_name_omission
  (channelNum : option Z) (psk : option (list Z))
  (uplinkEnabled downlinkEnabled : option bool) :
  let settings name :=
    ChannelSettings.mk channelNum psk name uplinkEnabled downlinkEnabled in
  field_name (settings (Some (code_units ""))) = []
  /\ buildChannelSettings (settings (Some (code_units "")))
     = buildChannelSettings (settings None)
  /\ buildChannelSettings (settings (Some (code_units "")))
     = field_channelNum (settings None) ++ field_psk (settings None)
         ++ field_uplinkEnabled (settings None)
         ++ field_downlinkEnabled (settings None).
Proof.
  intros settings.
  split; [reflexivity |].
  split; rewrite !buildChannelSettings_fields; reflexivity.
Qed.

(** The tags of the two fields of a ChannelSet. *)
Lemma length_delimited_encodeField (fieldNumber : Z) (payload : list Z) :
  0 <= fieldNumber < 2 ^ 28 -> is_bytes payload ->
  encodeField fieldNumber WIRE_TYPE.LENGTH_DELIMITED (Bytes payload)
  = length_delimited fieldNumber payload.
Proof.
  intros Hf Hp. rewrite encodeField_length_delimited.
  destruct (tag_value fieldNumber WIRE_TYPE.LENGTH_DELIMITED Hf) as [E _];
    [unfold WIRE_TYPE.LENGTH_DELIMITED; lia |].
  rewrite E, (from_bytes payload Hp). reflexivity.
Qed.

(** C4.  [buildChannelSet] returns, with nothing in front, between or
    behind: one length-delimited field 1 per entry of [config.channels], in
    the order of the array, each holding the encoded Channel; then, when
    [config.lora] is present, one length-delimited field 2 holding the encoded
    LoRaConfig. *)
Theorem buildChannelSet_wire_order (config : Config.t) :
  buildChannelSet config
  = flat_map (fun channel => length_delimited 1 (buildChannel channel))
      (match Config.channels config with
       | Some channels => channels
       | None => []
       end)
    ++ match Config.lora config with
       | Some lora => length_delimited 2 (buildLoRaConfig lora)
       | None => []
       end.
Proof.
  rewrite buildChannelSet_fields, flat_map_concat_map.
  f_equal.
  - f_equal. apply map_ext. intros channel.
    apply length_delimited_encodeField; [lia | apply buildChannel_bytes].
  - destruct (Config.lora config) as [lora |]; [| reflexivity].
    apply length_delimited_encodeField; [lia | apply buildLoRaConfig_bytes].
Qed.

End MessageClaims.

(** ** Strings as lists of characters *)

Section Strings.

Local Abbreviation chars := list_ascii_of_string.
Local Abbreviation str := string_of_list_ascii.

Lemma chars_append (s1 s2 : string) :
  chars (s1 ++ s2) = chars s1 ++ chars s2.
Proof.
  induction s1 as [| c s1 IH]; simpl; [reflexivity |].
  rewrite IH. reflexivity.
Qed.

Lemma str_app (l1 l2 : list ascii) :
  str (l1 ++ l2) = (str l1 ++ str l2)%string.
Proof.
  induction l1 as [| c l1 IH]; simpl; [reflexivity |].
  rewrite IH. reflexivity.
Qed.

Lemma length_chars (s : string) : length (chars s) = String.length s.
Proof.
  induction s as [| c s IH]; simpl; [reflexivity |].
  rewrite IH. reflexivity.
Qed.

Lemma chars_replaceAll (c d : ascii) (s : string) :
  chars (replaceAll c d s)
  = map (fun x => if Ascii.eqb x c then d else x) (chars s).
Proof.
  induction s as [| x s IH]; simpl; [reflexivity |].
  rewrite IH. reflexivity.
Qed.

Lemma chars_removeAll (c : ascii) (s : string) :
  chars (removeAll c s) = filter (fun x => negb (Ascii.eqb x c)) (chars s).
Proof.
  induction s as [| x s IH]; simpl; [reflexivity |].
  destruct (Ascii.eqb x c); simpl; rewrite IH; reflexivity.
Qed.

(** What may occur after a replacement or a removal. *)
Lemma occurs_replaceAll (x c d : ascii) (s : string) :
  occurs x (replaceAll c d s) -> x = d \/ (x <> c /\ occurs x s).
Proof.
  unfold occurs. rewrite chars_replaceAll, in_map_iff.
  intros [y [E Hy]].
  destruct (Ascii.eqb_spec y c) as [Heq | Hne].
  - left. congruence.
  - right. subst y. split; assumption.
Qed.

Lemma occurs_removeAll (x c : ascii) (s : string) :
  occurs x (removeAll c s) -> x <> c /\ occurs x s.
Proof.
  unfold occurs. rewrite chars_removeAll, filter_In.
  intros [Hx Hne]. split; [| assumption].
  intros ->. rewrite Ascii.eqb_refl in Hne. discriminate.
Qed.

Lemma append_empty_r (s : string) : (s ++ "")%string = s.
Proof.
  induction s as [| c s IH]; simpl; [reflexivity |].
  rewrite IH. reflexivity.
Qed.

Lemma append_assoc (s1 s2 s3 : string) :
  ((s1 ++ s2) ++ s3)%string = (s1 ++ (s2 ++ s3))%string.
Proof.
  induction s1 as [| c s1 IH]; simpl; [reflexivity |].
  rewrite IH. reflexivity.
Qed.

(** The binary string of [uint8ArrayToBase64] has one character per byte. *)
Lemma binary_string (bytes : list Z) (binary : string) :
  fold_left (fun binary b => (binary ++ String (fromCharCode b) "")%string)
    bytes binary
  = (binary ++ str (map fromCharCode bytes))%string.
Proof.
  revert binary. induction bytes as [| b bytes IH]; intros binary.
  - simpl. rewrite append_empty_r. reflexivity.
  - cbn [fold_left map]. rewrite IH, append_assoc. reflexivity.
Qed.

Lemma uint8ArrayToBase64_btoa (bytes : list Z) :
  uint8ArrayToBase64 bytes = btoa (str (map fromCharCode bytes)).
Proof.
  unfold uint8ArrayToBase64. rewrite binary_string. reflexivity.
Qed.

Lemma charCode_byte (c : ascii) : is_byte (charCode c).
Proof.
  unfold is_byte, charCode.
  pose proof (N_ascii_bounded c). lia.
Qed.

Lemma charCode_fromCharCode (b : Z) : is_byte b -> charCode (fromCharCode b) = b.
Proof.
  unfold is_byte, charCode, fromCharCode. intros H.
  rewrite N_ascii_embedding by lia. lia.
Qed.

Lemma fromCharCode_charCode (c : ascii) : fromCharCode (charCode c) = c.
Proof.
  unfold charCode, fromCharCode.
  rewrite N2Z.id. apply ascii_N_embedding.
Qed.

Lemma codes_of_bytes (bytes : list Z) :
  is_bytes bytes -> map charCode (map fromCharCode bytes) = bytes.
Proof.
  induction 1 as [| b bytes Hb _ IH]; simpl; [reflexivity |].
  rewrite IH, charCode_fromCharCode by assumption. reflexivity.
Qed.

Lemma chars_of_codes (l : list ascii) :
  map fromCharCode (map charCode l) = l.
Proof.
  induction l as [| c l IH]; simpl; [reflexivity |].
  rewrite IH, fromCharCode_charCode. reflexivity.
Qed.

End Strings.

(** ** Base64: [atob] undoes [btoa] *)

Section Base64.

Local Abbreviation chars := list_ascii_of_string.
Local Abbreviation str := string_of_list_ascii.

(** Induction three elements at a time, as [sextets] recurses. *)
Lemma list_ind3 {A : Type} (P : list A -> Prop) :
  P [] -> (forall a, P [a]) -> (forall a b, P [a; b]) ->
  (forall a b c l, P l -> P (a :: b :: c :: l)) ->
  forall l, P l.
Proof.
  intros H0 H1 H2 H3 l.
  assert (H : P l /\ (forall a, P (a :: l)) /\ (forall a b, P (a :: b :: l))).
  { induction l as [| x l [IH0 [IH1 IH2]]].
    - auto.
    - split; [apply IH1 |]. split; [intros a; apply IH2 |].
      intros a b. apply H3, IH0. }
  apply H.
Qed.

Lemma filter_id {A : Type} (f : A -> bool) (l : list A) :
  (forall x, In x l -> f x = true) -> filter f l = l.
Proof.
  induction l as [| x l IH]; intros H; simpl; [reflexivity |].
  rewrite (H x) by (left; reflexivity).
  rewrite IH by (intros y Hy; apply H; right; exact Hy). reflexivity.
Qed.

(** A property checked on the 64 characters of the alphabet holds of the
    character of every 6-bit group; checked on [=] too, of every character
    [btoa] can produce. *)
Lemma base64_char_sextet (P : ascii -> bool) (i : Z) :
  forallb P (chars base64_alphabet) = true ->
  0 <= i < 64 -> P (base64_char i) = true.
Proof.
  intros HP Hi. rewrite forallb_forall in HP. apply HP.
  unfold base64_char. apply nth_In.
  change (length (chars base64_alphabet)) with 64%nat. lia.
Qed.

Lemma base64_char_any (P : ascii -> bool) (i : Z) :
  forallb P (chars base64_alphabet) = true -> P "="%char = true ->
  P (base64_char i) = true.
Proof.
  intros HP Hpad. rewrite forallb_forall in HP. unfold base64_char.
  destruct (nth_in_or_default (Z.to_nat i) (chars base64_alphabet) "="%char)
    as [Hin | ->]; [apply HP, Hin | exact Hpad].
Qed.

Lemma base64_index_char (i : Z) :
  0 <= i < 64 -> base64_index (base64_char i) = Some i.
Proof.
  intros Hi.
  assert (H : forallb
                (fun n =>
                   match base64_index (base64_char (Z.of_nat n)) with
                   | Some j => j =? Z.of_nat n
                   | None => false
                   end)
                (seq 0 64) = true) by (vm_compute; reflexivity).
  rewrite forallb_forall in H.
  specialize (H (Z.to_nat i)). rewrite Z2Nat.id in H by lia.
  assert (Hin : In (Z.to_nat i) (seq 0 64)) by (apply in_seq; lia).
  specialize (H Hin).
  destruct (base64_index (base64_char i)) as [j |]; [| discriminate].
  apply Z.eqb_eq in H. congruence.
Qed.

Lemma base64_char_not_pad (i : Z) :
  0 <= i < 64 -> base64_char i <> "="%char.
Proof.
  intros Hi E.
  pose proof (base64_char_sextet (fun c => negb (Ascii.eqb c "=")) i
                ltac:(vm_compute; reflexivity) Hi) as H.
  cbv beta in H. rewrite E in H. discriminate.
Qed.

(** The 6-bit groups of bytes are 6-bit groups, and regroup to the bytes. *)
Lemma sextets_range (bytes : list Z) :
  is_bytes bytes -> Forall (fun s => 0 <= s < 64) (sextets bytes).
Proof.
  unfold is_bytes, is_byte.
  induction bytes as [| a | a b | a b c l IH] using list_ind3; intros H.
  - constructor.
  - inversion_clear H. cbn [sextets].
    repeat constructor; Z.div_mod_to_equations; lia.
  - inversion_clear H as [| ? ? Ha H']. inversion_clear H' as [| ? ? Hb _].
    cbn [sextets]. repeat constructor; Z.div_mod_to_equations; lia.
  - inversion_clear H as [| ? ? Ha H']. inversion_clear H' as [| ? ? Hb H''].
    inversion_clear H'' as [| ? ? Hc Hl].
    cbn [sextets]. repeat (apply Forall_cons); [.. | apply IH, Hl];
      Z.div_mod_to_equations; lia.
Qed.

Lemma unsextets_sextets (bytes : list Z) :
  is_bytes bytes -> unsextets (sextets bytes) = bytes.
Proof.
  unfold is_bytes, is_byte.
  induction bytes as [| a | a b | a b c l IH] using list_ind3; intros H.
  - reflexivity.
  - inversion_clear H. cbn [sextets unsextets].
    f_equal. Z.div_mod_to_equations. lia.
  - inversion_clear H as [| ? ? Ha H']. inversion_clear H' as [| ? ? Hb _].
    cbn [sextets unsextets].
    f_equal; [| f_equal]; Z.div_mod_to_equations; lia.
  - inversion_clear H as [| ? ? Ha H']. inversion_clear H' as [| ? ? Hb H''].
    inversion_clear H'' as [| ? ? Hc Hl].
    cbn [sextets unsextets]. rewrite (IH Hl).
    f_equal; [| f_equal; [| f_equal]]; Z.div_mod_to_equations; lia.
Qed.

(** The padding is what brings the text to a multiple of four characters,
    and the unpadded length is never 1 modulo 4. *)
Lemma padding_chars (n : nat) :
  chars (base64_padding n)
  = repeat "="%char (length (chars (base64_padding n)))
  /\ (length (chars (base64_padding n)) <= 2)%nat.
Proof.
  unfold base64_padding.
  destruct (n mod 3)%nat as [| [| [| k]]]; simpl; split; (reflexivity || lia).
Qed.

Lemma base64_padding_step (n : nat) :
  base64_padding (S (S (S n))) = base64_padding n.
Proof.
  unfold base64_padding.
  replace (S (S (S n))) with (n + 1 * 3)%nat by lia.
  rewrite Nat.Div0.mod_add. reflexivity.
Qed.

Lemma sextets_length (bytes : list Z) :
  ((4 - length (sextets bytes) mod 4) mod 4
   = length (chars (base64_padding (length bytes))))%nat
  /\ (length (sextets bytes) mod 4 <> 1)%nat.
Proof.
  induction bytes as [| a | a b | a b c l [IH1 IH2]] using list_ind3;
    try (split; [reflexivity | discriminate]).
  cbn [sextets length]. rewrite base64_padding_step.
  replace (S (S (S (S (length (sextets l))))))
    with (length (sextets l) + 1 * 4)%nat by lia.
  rewrite Nat.Div0.mod_add. split; assumption.
Qed.

Lemma indices_chars (groups : list Z) :
  Forall (fun s => 0 <= s < 64) groups ->
  indices (map base64_char groups) = Some groups.
Proof.
  induction 1 as [| s groups Hs _ IH]; [reflexivity |].
  cbn [map indices]. rewrite base64_index_char, IH by assumption.
  reflexivity.
Qed.

Lemma ends_with_pad_app (l : list ascii) (c : ascii) :
  ends_with_pad (l ++ [c]) = Ascii.eqb c "=".
Proof.
  unfold ends_with_pad. rewrite rev_app_distr. reflexivity.
Qed.

Lemma strip_one_pad_body (body : list ascii) :
  (forall c, In c body -> c <> "="%char) -> strip_one_pad body = body.
Proof.
  intros H. unfold strip_one_pad.
  destruct body as [| x body'] using rev_ind; [reflexivity |].
  rewrite ends_with_pad_app.
  destruct (Ascii.eqb_spec x "=") as [E | _]; [| reflexivity].
  exfalso. apply (H x); [apply in_or_app; right; left; reflexivity | exact E].
Qed.

Lemma strip_one_pad_pad (l : list ascii) :
  strip_one_pad (l ++ ["="%char]) = l.
Proof.
  unfold strip_one_pad. rewrite ends_with_pad_app.
  change (Ascii.eqb "=" "=") with true. cbv iota.
  apply removelast_last.
Qed.

Lemma strip_padding_padded (body : list ascii) (k : nat) :
  (forall c, In c body -> c <> "="%char) -> (k <= 2)%nat ->
  strip_padding (body ++ repeat "="%char k) = body.
Proof.
  intros H Hk. unfold strip_padding.
  destruct k as [| [| [| k]]]; [| | | lia]; cbn [repeat].
  - rewrite app_nil_r, !(strip_one_pad_body body) by assumption. reflexivity.
  - rewrite strip_one_pad_pad, strip_one_pad_body by assumption. reflexivity.
  - change ["="%char; "="%char] with (["="%char] ++ ["="%char]).
    rewrite app_assoc, !strip_one_pad_pad. reflexivity.
Qed.

(** The characters of the text [btoa] returns. *)
Lemma chars_btoa (binary : string) :
  let groups := sextets (map charCode (chars binary)) in
  chars (btoa binary)
  = map base64_char groups ++ repeat "="%char ((4 - length groups mod 4) mod 4).
Proof.
  cbv zeta. unfold btoa.
  rewrite chars_append, list_ascii_of_string_of_list_ascii.
  destruct (sextets_length (map charCode (chars binary))) as [E _].
  rewrite E. f_equal. apply padding_chars.
Qed.

Lemma binary_bytes (binary : string) : is_bytes (map charCode (chars binary)).
Proof.
  apply Forall_forall. intros b Hb. apply in_map_iff in Hb.
  destruct Hb as [c [<- _]]. apply charCode_byte.
Qed.

Lemma body_no_pad (groups : list Z) :
  Forall (fun s => 0 <= s < 64) groups ->
  forall c, In c (map base64_char groups) -> c <> "="%char.
Proof.
  intros H c Hc. apply in_map_iff in Hc. destruct Hc as [s [<- Hs]].
  rewrite Forall_forall in H. apply base64_char_not_pad, H, Hs.
Qed.

Lemma padded_length (n : nat) : ((n + (4 - n mod 4) mod 4) mod 4 = 0)%nat.
Proof.
  pose proof (Nat.mod_upper_bound n 4 ltac:(lia)) as Hb.
  pose proof (Nat.div_mod_eq n 4) as E.
  set (r := (n mod 4)%nat) in *. set (q := (n / 4)%nat) in *.
  clearbody r q.
  assert (Hr : (r = 0 \/ r = 1 \/ r = 2 \/ r = 3)%nat) by lia.
  subst n.
  destruct Hr as [-> | [-> | [-> | ->]]].
  - change ((4 - 0) mod 4)%nat with 0%nat.
    replace (4 * q + 0 + 0)%nat with (0 + q * 4)%nat by lia.
    apply Nat.Div0.mod_add.
  - change ((4 - 1) mod 4)%nat with 3%nat.
    replace (4 * q + 1 + 3)%nat with (0 + (q + 1) * 4)%nat by lia.
    apply Nat.Div0.mod_add.
  - change ((4 - 2) mod 4)%nat with 2%nat.
    replace (4 * q + 2 + 2)%nat with (0 + (q + 1) * 4)%nat by lia.
    apply Nat.Div0.mod_add.
  - change ((4 - 3) mod 4)%nat with 1%nat.
    replace (4 * q + 3 + 1)%nat with (0 + (q + 1) * 4)%nat by lia.
    apply Nat.Div0.mod_add.
Qed.

(** [atob] is a left inverse of [btoa]. *)
Lemma atob_btoa (binary : string) : atob (btoa binary) = Some binary.
Proof.
  unfold atob. rewrite chars_btoa. cbv zeta.
  set (bytes := map charCode (chars binary)).
  pose proof (binary_bytes binary) as Hbytes. fold bytes in Hbytes.
  pose proof (sextets_range bytes Hbytes) as Hrange.
  destruct (sextets_length bytes) as [Hpad Hmod].
  set (groups := sextets bytes) in *.
  set (k := ((4 - length groups mod 4) mod 4)%nat) in *.
  assert (Hk : (k <= 2)%nat).
  { rewrite Hpad. apply padding_chars. }
  rewrite filter_id.
  2:{ intros c Hc. apply in_app_or in Hc. destruct Hc as [Hc | Hc].
      - apply in_map_iff in Hc. destruct Hc as [s [<- _]].
        apply (base64_char_any (fun c => negb (is_ascii_whitespace c)));
          vm_compute; reflexivity.
      - apply repeat_spec in Hc. subst c. vm_compute. reflexivity. }
  rewrite length_app, length_map, repeat_length.
  subst k. rewrite padded_length, Nat.eqb_refl.
  rewrite strip_padding_padded by (try apply body_no_pad; assumption).
  rewrite length_map.
  destruct (Nat.eqb_spec (length groups mod 4) 1) as [E | _]; [contradiction |].
  rewrite indices_chars by assumption.
  subst groups. rewrite unsextets_sextets by assumption.
  subst bytes. rewrite chars_of_codes, string_of_list_ascii_of_string.
  reflexivity.
Qed.

(** Decoding the standard base64 text of a byte array gives the array. *)
Lemma base64ToUint8Array_uint8ArrayToBase64 (bytes : list Z) :
  is_bytes bytes ->
  base64ToUint8Array (uint8ArrayToBase64 bytes) = Some bytes.
Proof.
  intros H. unfold base64ToUint8Array.
  rewrite uint8ArrayToBase64_btoa, atob_btoa.
  rewrite list_ascii_of_string_of_list_ascii, codes_of_bytes by assumption.
  rewrite from_bytes by assumption. reflexivity.
Qed.

End Base64.

(** ** The URL-safe framing *)

Section Base64URL.

Local Abbreviation chars := list_ascii_of_string.
Local Abbreviation str := string_of_list_ascii.

(** The 6-bit groups of the binary string of a byte array. *)
Local Abbreviation groups_of bytes :=
  (sextets (map charCode (map fromCharCode bytes))).

Lemma chars_inj (s1 s2 : string) : chars s1 = chars s2 -> s1 = s2.
Proof.
  intros E.
  rewrite <- (string_of_list_ascii_of_string s1),
    <- (string_of_list_ascii_of_string s2), E.
  reflexivity.
Qed.

Lemma replace_twice_url_safe (l : list ascii) :
  map (fun x => if Ascii.eqb x "/" then "_"%char else x)
    (map (fun x => if Ascii.eqb x "+" then "-"%char else x) l)
  = map url_safe l.
Proof.
  rewrite map_map. apply map_ext. intros c. unfold url_safe.
  destruct (Ascii.eqb_spec c "+") as [-> | _]; reflexivity.
Qed.

Lemma replace_twice_url_unsafe (l : list ascii) :
  map (fun x => if Ascii.eqb x "_" then "/"%char else x)
    (map (fun x => if Ascii.eqb x "-" then "+"%char else x) l)
  = map url_unsafe l.
Proof.
  rewrite map_map. apply map_ext. intros c. unfold url_unsafe.
  destruct (Ascii.eqb_spec c "-") as [-> | _]; reflexivity.
Qed.

Lemma groups_range (bytes : list Z) :
  Forall (fun s => 0 <= s < 64) (groups_of bytes).
Proof.
  apply sextets_range.
  pose proof (binary_bytes (str (map fromCharCode bytes))) as H.
  rewrite list_ascii_of_string_of_list_ascii in H. exact H.
Qed.

Lemma filter_none {A : Type} (f : A -> bool) (l : list A) :
  (forall x, In x l -> f x = false) -> filter f l = [].
Proof.
  induction l as [| x l IH]; intros H; simpl; [reflexivity |].
  rewrite (H x) by (left; reflexivity).
  apply IH. intros y Hy. apply H. right. exact Hy.
Qed.

(** The characters of the URL-safe text: one per 6-bit group, no padding. *)
Lemma chars_uint8ArrayToBase64URL (bytes : list Z) :
  chars (uint8ArrayToBase64URL bytes)
  = map url_safe (map base64_char (groups_of bytes)).
Proof.
  unfold uint8ArrayToBase64URL.
  rewrite chars_removeAll, !chars_replaceAll, replace_twice_url_safe.
  rewrite uint8ArrayToBase64_btoa, chars_btoa. cbv zeta.
  rewrite list_ascii_of_string_of_list_ascii.
  rewrite map_app, filter_app.
  rewrite filter_id, filter_none; [apply app_nil_r | |].
  - intros c Hc. apply in_map_iff in Hc. destruct Hc as [x [<- Hx]].
    apply repeat_spec in Hx. subst x. reflexivity.
  - intros c Hc. rewrite map_map in Hc. apply in_map_iff in Hc.
    destruct Hc as [s [<- Hs]].
    pose proof (groups_range bytes) as Hr. rewrite Forall_forall in Hr.
    apply (base64_char_sextet
             (fun c => negb (Ascii.eqb (url_safe c) "="))) ;
      [vm_compute; reflexivity | apply Hr, Hs].
Qed.

Lemma base64url_chars_safe (bytes : list Z) (c : ascii) :
  occurs c (uint8ArrayToBase64URL bytes) -> is_base64url_char c = true.
Proof.
  unfold occurs. rewrite chars_uint8ArrayToBase64URL, map_map.
  intros Hc. apply in_map_iff in Hc. destruct Hc as [s [<- Hs]].
  pose proof (groups_range bytes) as Hr. rewrite Forall_forall in Hr.
  apply (base64_char_sextet (fun c => is_base64url_char (url_safe c)));
    [vm_compute; reflexivity | apply Hr, Hs].
Qed.

Lemma uint8ArrayToBase64URL_no_pad (bytes : list Z) :
  ~ occurs "=" (uint8ArrayToBase64URL bytes).
Proof.
  intros H. apply base64url_chars_safe in H. discriminate H.
Qed.

Lemma url_unsafe_url_safe (groups : list Z) :
  map url_unsafe (map url_safe (map base64_char groups))
  = map base64_char groups.
Proof.
  rewrite !map_map. apply map_ext. intros s.
  pose proof (base64_char_any
                (fun c => Ascii.eqb (url_unsafe (url_safe c)) c) s
                ltac:(vm_compute; reflexivity)
                ltac:(vm_compute; reflexivity)) as H.
  apply Ascii.eqb_eq, H.
Qed.

Lemma url_unsafe_padding (k : nat) :
  map url_unsafe (repeat "="%char k) = repeat "="%char k.
Proof.
  induction k as [| k IH]; simpl; [reflexivity |].
  rewrite IH. reflexivity.
Qed.

End Base64URL.

(** ** The claims on the framing and the URLs *)

Section URLClaims.

Local Abbreviation chars := list_ascii_of_string.
Local Abbreviation str := string_of_list_ascii.
Local Abbreviation groups_of bytes :=
  (sextets (map charCode (map fromCharCode bytes))).

(** C6.  For every byte sequence the URL-safe text holds none of [+], [/]
    and [=]: it is the standard base64 text of the bytes with [+] turned
    into [-], [/] into [_] and every [=] removed, which leaves one character
    of the URL-safe alphabet per 6-bit group. *)
Theorem uint8ArrayToBase64URL_safe (bytes : list Z) :
  ~ occurs "+" (uint8ArrayToBase64URL bytes)
  /\ ~ occurs "/" (uint8ArrayToBase64URL bytes)
  /\ ~ occurs "=" (uint8ArrayToBase64URL bytes)
  /\ uint8ArrayToBase64URL bytes
     = removeAll "="
         (replaceAll "/" "_"
            (replaceAll "+" "-" (btoa (str (map fromCharCode bytes)))))
  /\ chars (uint8ArrayToBase64URL bytes)
     = map url_safe
         (map base64_char (sextets (map charCode (map fromCharCode bytes))))
  /\ (forall c, occurs c (uint8ArrayToBase64URL bytes) ->
      is_base64url_char c = true).
Proof.
  assert (Hno : forall c, is_base64url_char c = false ->
                ~ occurs c (uint8ArrayToBase64URL bytes)).
  { intros c Hc Ho. apply base64url_chars_safe in Ho. congruence. }
  split; [apply Hno; reflexivity |].
  split; [apply Hno; reflexivity |].
  split; [apply Hno; reflexivity |].
  split.
  { unfold uint8ArrayToBase64URL. rewrite uint8ArrayToBase64_btoa.
    reflexivity. }
  split; [apply chars_uint8ArrayToBase64URL |].
  apply base64url_chars_safe.
Qed.

(** C7.  For every byte sequence [b], of any length,
    [fromBase64URL (toBase64URL b) = b]: re-deriving the padding, undoing the
    substitution and decoding the standard text gives the bytes back. *)
Theorem base64url_round_trip (bytes : list Z) :
  is_bytes bytes ->
  fromBase64URL (uint8ArrayToBase64URL bytes) = Some bytes.
Proof.
  intros Hbytes. unfold fromBase64URL.
  set (url := uint8ArrayToBase64URL bytes).
  assert (Hvalid : forallb is_base64url_char (chars url) = true).
  { apply forallb_forall. intros c Hc.
    apply (base64url_chars_safe bytes c Hc). }
  rewrite Hvalid. cbn [negb orb].
  assert (Hlen : String.length url = length (groups_of bytes)).
  { rewrite <- length_chars. unfold url.
    rewrite chars_uint8ArrayToBase64URL, !length_map. reflexivity. }
  rewrite Hlen.
  destruct (sextets_length (map charCode (map fromCharCode bytes)))
    as [_ Hmod].
  destruct (Nat.eqb_spec (length (groups_of bytes) mod 4) 1) as [E | _];
    [contradiction |].
  assert (Hstd :
            replaceAll "_" "/"
              (replaceAll "-" "+"
                 (url
                    ++ str (repeat "="%char
                              ((4 - length (groups_of bytes) mod 4) mod 4))))
            = uint8ArrayToBase64 bytes).
  { apply chars_inj.
    rewrite !chars_replaceAll, replace_twice_url_unsafe, chars_append.
    unfold url.
    rewrite chars_uint8ArrayToBase64URL, list_ascii_of_string_of_list_ascii.
    rewrite map_app, url_unsafe_url_safe.
    rewrite uint8ArrayToBase64_btoa, chars_btoa. cbv zeta.
    rewrite list_ascii_of_string_of_list_ascii. f_equal.
    apply url_unsafe_padding. }
  rewrite Hstd.
  apply base64ToUint8Array_uint8ArrayToBase64, Hbytes.
Qed.

Lemma base64url_round_trip_witness :
  is_bytes [251; 255; 254; 1]
  /\ fromBase64URL (uint8ArrayToBase64URL [251; 255; 254; 1])
     = Some [251; 255; 254; 1].
Proof.
  assert (H : is_bytes [251; 255; 254; 1]).
  { repeat constructor; unfold is_byte; lia. }
  split; [exact H | apply (base64url_round_trip [251; 255; 254; 1] H)].
Defined.

(** C8.  For every config the generated URL is the base URL
    [https://meshtastic.org/e/], whose path is [/e/], then [#], then the
    unpadded base64url text of the serialized ChannelSet; the fragment holds
    URL-safe characters only, so the first [#] is where the payload starts. *)
Theorem generateMeshtasticURL_shape (config : Config.t) :
  let payload := uint8ArrayToBase64URL (buildChannelSet config) in
  generateMeshtasticURL config = (baseURL ++ "#" ++ payload)%string
  /\ baseURL = ("https://" ++ "meshtastic.org" ++ "/e/")%string
  /\ ~ occurs "#" baseURL
  /\ (forall c, occurs c payload -> is_base64url_char c = true)
  /\ ~ occurs "#" payload
  /\ ~ occurs "=" payload.
Proof.
  intros payload.
  assert (Hno : forall c, is_base64url_char c = false -> ~ occurs c payload).
  { intros c Hc Ho. apply base64url_chars_safe in Ho. congruence. }
  split.
  { unfold generateMeshtasticURL, baseURL. fold payload.
    rewrite <- append_assoc. reflexivity. }
  split; [reflexivity |].
  split.
  { unfold occurs, baseURL. intros H. cbn in H.
    repeat (destruct H as [H | H]; [discriminate H |]). exact H. }
  split; [intros c; apply base64url_chars_safe |].
  split; apply Hno; reflexivity.
Qed.

(** The length of the standard base64 text. *)
Lemma sextets_count (bytes : list Z) :
  length (sextets bytes) = ((4 * length bytes + 2) / 3)%nat.
Proof.
  induction bytes as [| a | a b | a b c l IH] using list_ind3;
    try reflexivity.
  cbn [sextets length]. rewrite IH.
  replace (4 * S (S (S (length l))) + 2)%nat
    with (4 * length l + 2 + 4 * 3)%nat by lia.
  rewrite Nat.div_add by lia. lia.
Qed.

Lemma generateRandomPSK_bytes (random : RandomSource) :
  length (fst (generateRandomPSK random)) = 32%nat
  /\ is_bytes (fst (generateRandomPSK random)).
Proof.
  unfold generateRandomPSK, getRandomValues. cbn [fst].
  split.
  - rewrite length_map, length_seq. reflexivity.
  - apply Forall_forall. intros b Hb. apply in_map_iff in Hb.
    destruct Hb as [i [<- _]]. unfold is_byte, ToUint8.
    apply Z.mod_pos_bound. lia.
Qed.

Lemma chars_uint8ArrayToBase64 (bytes : list Z) :
  chars (uint8ArrayToBase64 bytes)
  = map base64_char (sextets (map charCode (map fromCharCode bytes)))
      ++ repeat "="%char
           ((4 - (4 * length bytes + 2) / 3 mod 4) mod 4).
Proof.
  rewrite uint8ArrayToBase64_btoa, chars_btoa. cbv zeta.
  rewrite list_ascii_of_string_of_list_ascii, sextets_count, !length_map.
  reflexivity.
Qed.

(** C9.  Whatever the name argument (omitted, empty or given),
    [generatePrivateChannelURL] takes as PSK the next 32 numbers the secure
    random source delivers, each as a byte, and leaves the source 32 numbers
    further, so that the next call draws a key of its own.  The URL is the one
    of a config with exactly one channel, of role 1 (primary), with uplink
    and downlink disabled and that PSK, whose 32 bytes stand in field 2 of the
    channel's settings; the name is ['Private'] when the argument is omitted
    or empty.  The [psk] returned is the standard, padded base64 text of the
    PSK (44 characters ending in [=], not the URL-safe text), and it decodes
    to those 32 bytes. *)
Theorem generatePrivateChannelURL_private
  (channelName : option (list Z)) (random : RandomSource) :
  let result := fst (generatePrivateChannelURL channelName random) in
  let key := map (fun i => ToUint8 (random i)) (seq 0 32) in
  let name :=
    match channelName with
    | Some (c :: rest) => c :: rest
    | _ => code_units "Private"
    end in
  let settings :=
    {| ChannelSettings.channelNum := None;
       ChannelSettings.psk := Some key;
       ChannelSettings.name := Some name;
       ChannelSettings.uplinkEnabled := Some false;
       ChannelSettings.downlinkEnabled := Some false |} in
  let config :=
    {| Config.lora := Some HYPHAE_MESH_CONFIG.lora;
       Config.channels :=
         Some [ {| Channel.index := Some 0;
                   Channel.settings := Some settings;
                   Channel.role := Some 1 |} ] |} in
  fst (generateRandomPSK random) = key
  /\ length key = 32%nat
  /\ is_bytes key
  /\ PrivateChannel.url result = generateMeshtasticURL config
  /\ buildChannelSettings settings
     = [0x12; 0x20] ++ key ++ encodeString 3 name ++ [0x28; 0x00; 0x30; 0x00]
  /\ PrivateChannel.psk result = uint8ArrayToBase64 key
  /\ base64ToUint8Array (PrivateChannel.psk result) = Some key
  /\ String.length (PrivateChannel.psk result) = 44%nat
  /\ occurs "=" (PrivateChannel.psk result)
  /\ PrivateChannel.psk result <> uint8ArrayToBase64URL key
  /\ snd (generatePrivateChannelURL channelName random)
     = (fun i => random (i + 32)%nat)
  /\ fst (generateRandomPSK
            (snd (generatePrivateChannelURL channelName random)))
     = map (fun i => ToUint8 (random (i + 32)%nat)) (seq 0 32).
Proof.
  intros result key name settings config.
  assert (Hkey : fst (generateRandomPSK random) = key) by reflexivity.
  destruct (generateRandomPSK_bytes random) as [Hlen Hbytes].
  rewrite Hkey in Hlen, Hbytes.
  assert (Hname : nameOrPrivate channelName = name).
  { subst name. destruct channelName as [[| c rest] |]; reflexivity. }
  assert (Hfull : exists c rest, name = c :: rest).
  { subst name. destruct channelName as [[| c rest] |];
      [vm_compute | | vm_compute]; eauto. }
  assert (Hpsk : PrivateChannel.psk result = uint8ArrayToBase64 key)
    by reflexivity.
  assert (Hpad : occurs "=" (uint8ArrayToBase64 key)).
  { unfold occurs. rewrite chars_uint8ArrayToBase64, Hlen.
    apply in_or_app. right. left. reflexivity. }
  split; [exact Hkey |].
  split; [exact Hlen |].
  split; [exact Hbytes |].
  split.
  { change (PrivateChannel.url result)
      with (generateMeshtasticURL (privateChannelConfig channelName key)).
    unfold privateChannelConfig. rewrite Hname. reflexivity. }
  split.
  { rewrite buildChannelSettings_fields.
    unfold field_channelNum, field_psk, field_name, field_uplinkEnabled,
      field_downlinkEnabled, settings.
    cbn [ChannelSettings.channelNum ChannelSettings.psk ChannelSettings.name
      ChannelSettings.uplinkEnabled ChannelSettings.downlinkEnabled].
    destruct Hfull as [c [rest ->]].
    unfold encodeBytes.
    rewrite encodeField_length_delimited, (from_bytes key Hbytes), Hlen.
    change (encodeVarint (bitor (shl 2 3) WIRE_TYPE.LENGTH_DELIMITED))
      with [18].
    change (encodeVarint (Z.of_nat 32)) with [32].
    change (encodeBool 5 false) with [40; 0].
    change (encodeBool 6 false) with [48; 0].
    cbn [app]. reflexivity. }
  split; [exact Hpsk |].
  split.
  { rewrite Hpsk. apply base64ToUint8Array_uint8ArrayToBase64, Hbytes. }
  split.
  { rewrite Hpsk, <- length_chars, chars_uint8ArrayToBase64.
    rewrite length_app, !length_map, repeat_length, Hlen. reflexivity. }
  split; [rewrite Hpsk; exact Hpad |].
  split.
  { rewrite Hpsk. intros E. rewrite E in Hpad.
    apply (uint8ArrayToBase64URL_no_pad key), Hpad. }
  split; reflexivity.
Qed.

End URLClaims.

(** * Further properties of the encoder *)

(** ** [encodeVarint] on every integer *)

Section VarintShape.

Lemma varint_of_length (v : Z) (bytes : list Z) :
  varint_of v bytes ->
  forall n, v < 128 ^ Z.of_nat (S n) -> (length bytes <= S n)%nat.
Proof.
  induction 1 as [v Hv | v rest Hv _ IH]; intros n Hn.
  - simpl. lia.
  - destruct n as [| m].
    + change (128 ^ Z.of_nat 1) with 128 in Hn. lia.
    + cbn [length]. apply le_n_S, IH.
      rewrite (Nat2Z.inj_succ (S m)), Z.pow_succ_r in Hn by lia.
      apply Z.div_lt_upper_bound; lia.
Qed.

(** X1.  On every integer, in range or not, [encodeVarint] returns between
    one and five bytes, each byte but the last with the continuation bit and
    the last without it; the 7-bit groups read back give the value modulo
    2^32 when the value is above 127, and the value modulo 128 otherwise. *)
Theorem encodeVarint_shape (value : Z) :
  (1 <= length (encodeVarint value) <= 5)%nat
  /\ is_bytes (encodeVarint value)
  /\ Forall (fun b => 128 <= b < 256) (removelast (encodeVarint value))
  /\ 0 <= last (encodeVarint value) 0 < 128
  /\ varint_value (encodeVarint value)
     = if 127 <? value then value mod 2 ^ 32 else value mod 128.
Proof.
  split; [| split; [apply encodeVarint_bytes |]].
  - destruct (Z.ltb_spec 127 value) as [Hlt | Hge].
    + rewrite encodeVarint_large by assumption. cbn [length].
      pose proof (next_value_bounds value Hlt) as Hb.
      assert (Hr : value mod 2 ^ 32 / 128 < 128 ^ Z.of_nat 4).
      { apply Z.div_lt_upper_bound; [lia |].
        pose proof (Z.mod_pos_bound value (2 ^ 32) ltac:(lia)).
        change (128 ^ Z.of_nat 4) with 268435456. lia. }
      pose proof (encodeVarint_varint_of (value mod 2 ^ 32 / 128)
                    ltac:(change (128 ^ Z.of_nat 4) with 268435456 in Hr; lia))
        as Hv.
      pose proof (varint_of_length _ _ Hv 3%nat Hr). lia.
    + rewrite encodeVarint_small by lia. simpl. lia.
  - destruct (Z.ltb_spec 127 value) as [Hlt | Hge].
    + rewrite encodeVarint_large by assumption.
      pose proof (next_value_bounds value Hlt) as Hb.
      assert (Hr : value mod 2 ^ 32 / 128 < 2 ^ 32).
      { pose proof (Z.mod_pos_bound value (2 ^ 32) ltac:(lia)).
        apply Z.div_lt_upper_bound; lia. }
      pose proof (encodeVarint_varint_of (value mod 2 ^ 32 / 128)
                    ltac:(lia)) as Hv.
      destruct (varint_of_continuation _ _ Hv) as [Hall [Hlast Hne]].
      remember (encodeVarint (value mod 2 ^ 32 / 128)) as rest eqn:E.
      destruct rest as [| b rest']; [congruence |].
      assert (Hm : 0 <= value mod 128 < 128) by (apply Z.mod_pos_bound; lia).
      split; [| split].
      * change (removelast (value mod 128 + 128 :: b :: rest'))
          with (value mod 128 + 128 :: removelast (b :: rest')).
        constructor; [lia | exact Hall].
      * change (last (value mod 128 + 128 :: b :: rest') 0)
          with (last (b :: rest') 0). exact Hlast.
      * cbn [varint_value].
        change (b mod 128 + 128 * varint_value rest')
          with (varint_value (b :: rest')).
        rewrite (varint_of_value _ _ Hv).
        replace (value mod 128 + 128) with (value mod 128 + 1 * 128) by lia.
        rewrite Z.mod_add, Z.mod_mod by lia.
        pose proof (Z.div_mod (value mod 2 ^ 32) 128 ltac:(lia)) as D.
        assert (M : (value mod 2 ^ 32) mod 128 = value mod 128).
        { change (2 ^ 32) with (128 * 33554432).
          rewrite Z.rem_mul_r by lia.
          rewrite (Z.mul_comm 128), Z.mod_add by lia.
          apply Z.mod_mod. lia. }
        lia.
    + rewrite encodeVarint_small by lia.
      assert (Hm : 0 <= value mod 128 < 128) by (apply Z.mod_pos_bound; lia).
      cbn [removelast last varint_value].
      split; [constructor |]. split; [exact Hm |].
      rewrite Z.mod_mod by lia. lia.
Qed.

End VarintShape.

(** ** The typed encoders *)

Section TypedEncoders.

Lemma encodeVarint_nonempty (value : Z) : encodeVarint value <> [].
Proof.
  destruct (Z_lt_dec 127 value) as [Hlt | Hge].
  - rewrite encodeVarint_large by assumption. discriminate.
  - rewrite encodeVarint_small by lia. discriminate.
Qed.

Lemma encodeField_nonempty (f w : Z) (data : field_data) :
  encodeField f w data <> [].
Proof.
  destruct (encodeField_tag_first f w data) as [rest E]. rewrite E.
  pose proof (encodeVarint_nonempty (bitor (shl f 3) w)) as H.
  destruct (encodeVarint (bitor (shl f 3) w)); [congruence | discriminate].
Qed.

Lemma encodeVarint_uint32_length (value : Z) :
  0 <= value < 2 ^ 32 -> (1 <= length (encodeVarint value) <= 5)%nat.
Proof.
  intros H. pose proof (encodeVarint_varint_of value H) as Hv.
  pose proof (varint_of_length _ _ Hv 4%nat) as Hl.
  change (128 ^ Z.of_nat 5) with 34359738368 in Hl.
  pose proof (encodeVarint_nonempty value) as Hne.
  destruct (encodeVarint value); [congruence |].
  cbn [length] in *. lia.
Qed.

(** X2.  For a field number below 2^28 and a value of 32 bits,
    [encodeUint32] is the varint of the tag [8 * fieldNumber] followed by the
    varint of the value, two to ten bytes in all. *)
Theorem encodeUint32_varints (fieldNumber value : Z) :
  0 <= fieldNumber < 2 ^ 28 -> 0 <= value < 2 ^ 32 ->
  encodeUint32 fieldNumber value
  = encodeVarint (8 * fieldNumber) ++ encodeVarint value
  /\ varint_of (8 * fieldNumber) (encodeVarint (8 * fieldNumber))
  /\ varint_of value (encodeVarint value)
  /\ (2 <= length (encodeUint32 fieldNumber value) <= 10)%nat.
Proof.
  intros Hf Hv. unfold encodeUint32. rewrite encodeField_varint.
  destruct (tag_value fieldNumber WIRE_TYPE.VARINT Hf) as [_ E];
    [unfold WIRE_TYPE.VARINT; lia |].
  rewrite E. unfold WIRE_TYPE.VARINT. rewrite Z.add_0_r.
  split; [reflexivity |].
  split; [apply encodeVarint_varint_of; lia |].
  split; [apply encodeVarint_varint_of; lia |].
  rewrite length_app.
  pose proof (encodeVarint_uint32_length (8 * fieldNumber) ltac:(lia)).
  pose proof (encodeVarint_uint32_length value Hv). lia.
Qed.

Lemma encodeUint32_varints_witness :
  0 <= 12 < 2 ^ 28 /\ 0 <= 300 < 2 ^ 32
  /\ encodeUint32 12 300 = encodeVarint (8 * 12) ++ encodeVarint 300.
Proof.
  split; [lia |]. split; [lia |].
  apply (encodeUint32_varints 12 300); lia.
Defined.

(** X3.  For a field number below 16, [encodeBool] returns exactly two
    bytes, the tag [8 * fieldNumber] and then 1 for [true], 0 for [false]:
    a [false] is written, not left out. *)
Theorem encodeBool_two_bytes (fieldNumber : Z) (value : bool) :
  0 <= fieldNumber < 16 ->
  encodeBool fieldNumber value = [8 * fieldNumber; if value then 1 else 0].
Proof.
  intros Hf. unfold encodeBool. rewrite encodeField_varint.
  destruct (tag_value fieldNumber WIRE_TYPE.VARINT) as [_ E];
    [lia | unfold WIRE_TYPE.VARINT; lia |].
  rewrite E. unfold WIRE_TYPE.VARINT. rewrite Z.add_0_r.
  rewrite !encodeVarint_small by (destruct value; lia).
  rewrite Z.mod_small by lia.
  destruct value; reflexivity.
Qed.

Lemma encodeBool_two_bytes_witness :
  0 <= 11 < 16 /\ encodeBool 11 false = [8 * 11; 0].
Proof.
  split; [lia | apply (encodeBool_two_bytes 11 false); lia].
Defined.

End TypedEncoders.

(** ** [concatUint8Arrays] as an operation on arrays *)

Section ConcatProperties.

Lemma concatUint8Arrays_map (arrays : list (list Z)) :
  concatUint8Arrays arrays = concat (map Uint8Array_from arrays).
Proof.
  rewrite concatUint8Arrays_concat. unfold Uint8Array_from.
  apply concat_map.
Qed.

(** X4.  [concatUint8Arrays] returns the elements of the arrays one after
    the other, each stored as a byte: its length is the sum of the lengths,
    the concatenation of two lists of arrays is the concatenation of their
    results, and arrays of bytes come out unchanged. *)
Theorem concatUint8Arrays_concatenation (arrays more : list (list Z)) :
  concatUint8Arrays arrays = concat (map Uint8Array_from arrays)
  /\ length (concatUint8Arrays arrays) = list_sum (map (@length Z) arrays)
  /\ concatUint8Arrays (arrays ++ more)
     = concatUint8Arrays arrays ++ concatUint8Arrays more
  /\ (Forall is_bytes arrays -> concatUint8Arrays arrays = concat arrays).
Proof.
  split; [apply concatUint8Arrays_map |].
  split.
  { rewrite concatUint8Arrays_concat. unfold Uint8Array_from.
    rewrite length_map. apply length_concat. }
  split.
  { rewrite !concatUint8Arrays_map, map_app. apply concat_app. }
  apply concatUint8Arrays_of_bytes.
Qed.

(** X5.  When the loop of [concatUint8Arrays] reaches an array, the offset
    is the number of elements of the arrays before it, the result array
    already holds those elements, and the array fits between the offset and
    the end: no [set] is out of range. *)
Theorem concatUint8Arrays_set_in_range
  (before after : list (list Z)) (arr : list Z) :
  let totalLength :=
    fold_left (fun sum a => (sum + length a)%nat) (before ++ arr :: after) 0%nat
  in
  let state :=
    fold_left concat_step before (Uint8Array_new totalLength, 0%nat) in
  snd state = length (concat before)
  /\ length (fst state) = totalLength
  /\ (snd state + length arr <= length (fst state))%nat
  /\ firstn (snd state) (fst state) = Uint8Array_from (concat before).
Proof.
  cbv zeta. rewrite totalLength_concat, concat_app. simpl.
  rewrite !length_app.
  pose proof
    (concat_loop before []
       (repeat 0 (length arr + length (concat after)))) as E.
  simpl in E. unfold Uint8Array_new in E. rewrite <- repeat_app in E.
  fold (Uint8Array_new
          (length (concat before) + (length arr + length (concat after))))
    in E.
  rewrite !E. cbn [fst snd].
  assert (L : length (Uint8Array_from (concat before))
              = length (concat before)).
  { unfold Uint8Array_from. apply length_map. }
  split; [reflexivity |].
  split; [unfold Uint8Array_new;
          rewrite length_app, L, !repeat_length; reflexivity |].
  split; [rewrite length_app, L, repeat_length; lia |].
  rewrite <- L at 1. rewrite firstn_app, firstn_all, Nat.sub_diag.
  rewrite firstn_O, app_nil_r. reflexivity.
Qed.

End ConcatProperties.

(** ** The other message builders *)

Section OtherBuilders.

Local Opaque encodeField.

Ltac fields_are_bytes :=
  repeat (apply Forall_cons || apply Forall_nil);
  unfold encodeUint32, encodeBytes, encodeString, encodeBool;
  try apply encodeField_bytes.

Lemma buildChannel_parts (channel : Channel.t) :
  buildChannel channel
  = match Channel.index channel with
    | Some index => encodeUint32 1 index
    | None => []
    end
    ++ match Channel.settings channel with
       | Some s => length_delimited 2 (buildChannelSettings s)
       | None => []
       end
    ++ match Channel.role channel with
       | Some role => encodeUint32 3 role
       | None => []
       end.
Proof.
  unfold buildChannel, push.
  destruct channel as [ix st rl]. cbn [Channel.index Channel.settings
    Channel.role].
  destruct st as [s |];
    [rewrite <- (length_delimited_encodeField 2 (buildChannelSettings s))
       by (try lia; apply concatUint8Arrays_bytes) |];
    destruct ix as [ix |]; destruct rl as [rl |]; cbn [app];
    (rewrite concatUint8Arrays_of_bytes by fields_are_bytes);
    cbn [concat app]; rewrite ?app_nil_r; reflexivity.
Qed.

Lemma buildLoRaConfig_parts (lora : LoRa.t) :
  buildLoRaConfig lora
  = match LoRa.region lora with
    | Some region => encodeUint32 3 region
    | None => []
    end
    ++ match LoRa.modemPreset lora with
       | Some modemPreset => encodeUint32 4 modemPreset
       | None => []
       end
    ++ match LoRa.hopLimit lora with
       | Some hopLimit => encodeUint32 7 hopLimit
       | None => []
       end
    ++ match LoRa.txEnabled lora with
       | Some txEnabled => encodeBool 11 txEnabled
       | None => []
       end
    ++ match LoRa.txPower lora with
       | Some txPower => encodeUint32 12 txPower
       | None => []
       end.
Proof.
  unfold buildLoRaConfig, push.
  destruct lora as [rg mp hl te tp]. cbn [LoRa.region LoRa.modemPreset
    LoRa.hopLimit LoRa.txEnabled LoRa.txPower].
  destruct rg as [rg |]; destruct mp as [mp |]; destruct hl as [hl |];
    destruct te as [te |]; destruct tp as [tp |]; cbn [app];
    (rewrite concatUint8Arrays_of_bytes by fields_are_bytes);
    cbn [concat app]; rewrite ?app_nil_r; reflexivity.
Qed.

Lemma encodeUint32_small (fieldNumber value : Z) :
  0 <= fieldNumber < 16 -> 0 <= value < 128 ->
  encodeUint32 fieldNumber value = [8 * fieldNumber; value].
Proof.
  intros Hf Hv. unfold encodeUint32. rewrite encodeField_varint.
  destruct (tag_value fieldNumber WIRE_TYPE.VARINT) as [_ E];
    [lia | unfold WIRE_TYPE.VARINT; lia |].
  rewrite E. unfold WIRE_TYPE.VARINT. rewrite Z.add_0_r.
  rewrite !encodeVarint_small, !Z.mod_small by lia. reflexivity.
Qed.

(** X6.  [buildChannel] writes, in this order and with nothing else: field
    1 with the index when there is one, field 2 holding the encoded
    ChannelSettings behind its length when there are settings, field 3 with
    the role when there is one.  An index of 0 is written (as the bytes
    [0x08 0x00]), and settings with no property set are written as an empty
    field 2 ([0x12 0x00]). *)
Theorem buildChannel_fields
  (index : option Z) (settings : option ChannelSettings.t) (role : option Z) :
  let channel := Channel.mk index settings role in
  buildChannel channel
  = match index with
    | Some index => encodeUint32 1 index
    | None => []
    end
    ++ match settings with
       | Some s => length_delimited 2 (buildChannelSettings s)
       | None => []
       end
    ++ match role with
       | Some role => encodeUint32 3 role
       | None => []
       end
  /\ buildChannel (Channel.mk (Some 0) settings role)
     = [8; 0] ++ buildChannel (Channel.mk None settings role)
  /\ buildChannel
       (Channel.mk None
          (Some (ChannelSettings.mk None None None None None)) None)
     = [18; 0].
Proof.
  intros channel.
  split; [apply buildChannel_parts |].
  split.
  - rewrite !buildChannel_parts. cbn [Channel.index Channel.settings
      Channel.role]. rewrite encodeUint32_small by lia. reflexivity.
  - vm_compute. reflexivity.
Qed.

(** X7.  [buildLoRaConfig] writes fields 3 (region), 4 (modem preset), 7
    (hop limit), 11 (tx enabled) and 12 (tx power), in this order, each one
    only when the property is set; with nothing set it returns no byte. *)
Theorem buildLoRaConfig_fields
  (region modemPreset hopLimit : option Z) (txEnabled : option bool)
  (txPower : option Z) :
  buildLoRaConfig (LoRa.mk region modemPreset hopLimit txEnabled txPower)
  = match region with Some v => encodeUint32 3 v | None => [] end
    ++ match modemPreset with Some v => encodeUint32 4 v | None => [] end
    ++ match hopLimit with Some v => encodeUint32 7 v | None => [] end
    ++ match txEnabled with Some b => encodeBool 11 b | None => [] end
    ++ match txPower with Some v => encodeUint32 12 v | None => [] end
  /\ buildLoRaConfig (LoRa.mk None None None None None) = [].
Proof.
  split; [apply buildLoRaConfig_parts | reflexivity].
Qed.

(** X8.  A LoRa config whose five properties are all set, with numbers
    below 128, encodes to exactly ten bytes: the tag bytes 0x18, 0x20, 0x38,
    0x58 and 0x60, each followed by its value. *)
Theorem buildLoRaConfig_ten_bytes
  (region modemPreset hopLimit txPower : Z) (txEnabled : bool) :
  0 <= region < 128 -> 0 <= modemPreset < 128 -> 0 <= hopLimit < 128 ->
  0 <= txPower < 128 ->
  buildLoRaConfig
    (LoRa.mk (Some region) (Some modemPreset) (Some hopLimit)
       (Some txEnabled) (Some txPower))
  = [0x18; region; 0x20; modemPreset; 0x38; hopLimit;
     0x58; if txEnabled then 1 else 0; 0x60; txPower].
Proof.
  intros Hr Hm Hh Hp. rewrite buildLoRaConfig_parts.
  cbn [LoRa.region LoRa.modemPreset LoRa.hopLimit LoRa.txEnabled
    LoRa.txPower].
  rewrite !encodeUint32_small by lia.
  change (encodeBool 11 txEnabled)
    with (encodeUint32 11 (if txEnabled then 1 else 0)).
  rewrite encodeUint32_small by (destruct txEnabled; lia).
  reflexivity.
Qed.

Lemma buildLoRaConfig_ten_bytes_witness :
  0 <= 1 < 128 /\ 0 <= 3 < 128 /\ 0 <= 6 < 128 /\ 0 <= 30 < 128
  /\ buildLoRaConfig HYPHAE_MESH_CONFIG.lora
     = [0x18; 1; 0x20; 3; 0x38; 6; 0x58; 1; 0x60; 30].
Proof.
  repeat (split; [lia |]).
  apply (buildLoRaConfig_ten_bytes 1 3 6 30 true); lia.
Defined.

(** X9.  In [buildChannelSettings] only an unset property is left out of
    the flags and the key: an empty key is written as an empty field 2
    ([0x12 0x00]) and [false] flags as [0x28 0x00] and [0x30 0x00]; a channel
    number that is zero or negative is left out like an unset one. *)
Theorem buildChannelSettings_presence (channelNum : Z) :
  channelNum <= 0 ->
  buildChannelSettings
    (ChannelSettings.mk (Some channelNum) (Some []) None
       (Some false) (Some false))
  = [0x12; 0x00; 0x28; 0x00; 0x30; 0x00].
Proof.
  intros H. rewrite buildChannelSettings_fields.
  unfold field_channelNum. cbn [ChannelSettings.channelNum].
  destruct (Z.gtb_spec channelNum 0) as [Hgt | _]; [lia |].
  vm_compute. reflexivity.
Qed.

Lemma buildChannelSettings_presence_witness :
  -5 <= 0
  /\ buildChannelSettings
       (ChannelSettings.mk (Some (-5)) (Some []) None
          (Some false) (Some false))
     = [0x12; 0x00; 0x28; 0x00; 0x30; 0x00].
Proof.
  split; [lia | apply (buildChannelSettings_presence (-5)); lia].
Defined.

(** X10.  [buildChannelSet] returns no byte exactly when there is nothing
    to encode: no [lora], and [channels] unset or empty. *)
Theorem buildChannelSet_empty (config : Config.t) :
  buildChannelSet config = []
  <-> Config.lora config = None
      /\ (Config.channels config = None \/ Config.channels config = Some []).
Proof.
  rewrite buildChannelSet_fields.
  destruct config as [chs lo]. cbn [Config.channels Config.lora].
  split.
  - intros E. apply app_eq_nil in E. destruct E as [E1 E2].
    split.
    + destruct lo as [lora |]; [| reflexivity].
      exfalso. revert E2. apply encodeField_nonempty.
    + destruct chs as [[| ch channels] |]; auto.
      exfalso. cbn [map concat] in E1. apply app_eq_nil in E1.
      destruct E1 as [E1 _]. revert E1. apply encodeField_nonempty.
  - intros [-> [-> | ->]]; reflexivity.
Qed.

End OtherBuilders.

(** ** Sizes and injectivity of the framing *)

From Stdlib Require Import ZifyNat.

Section FramingProperties.

Local Abbreviation chars := list_ascii_of_string.
Local Abbreviation str := string_of_list_ascii.

(** Arithmetic on [nat] with division and remainder by constants. *)
Ltac nat_div_mod := zify; Z.to_euclidean_division_equations; lia.

Lemma base64_text_length (n : nat) :
  ((4 * n + 2) / 3 + (4 - (4 * n + 2) / 3 mod 4) mod 4 = 4 * ((n + 2) / 3))%nat.
Proof. nat_div_mod. Qed.

Lemma base64_char_in_alphabet (i : Z) :
  In (base64_char i) (chars base64_alphabet) \/ base64_char i = "="%char.
Proof.
  unfold base64_char.
  destruct (nth_in_or_default (Z.to_nat i) (chars base64_alphabet) "="%char)
    as [Hin | E]; [left; exact Hin | right; exact E].
Qed.

(** X11.  The standard base64 text of [n] bytes has [4 * ceil(n / 3)]
    characters, all of them from the base64 alphabet or [=], and it holds a
    [=] exactly when [n] is not a multiple of three. *)
Theorem uint8ArrayToBase64_text (bytes : list Z) :
  String.length (uint8ArrayToBase64 bytes)
  = (4 * ((length bytes + 2) / 3))%nat
  /\ (forall c, occurs c (uint8ArrayToBase64 bytes) ->
      In c (chars base64_alphabet) \/ c = "="%char)
  /\ (occurs "=" (uint8ArrayToBase64 bytes)
      <-> (length bytes mod 3 <> 0)%nat).
Proof.
  split; [| split].
  - rewrite <- length_chars, chars_uint8ArrayToBase64.
    rewrite length_app, length_map, sextets_count, repeat_length, !length_map.
    apply base64_text_length.
  - intros c. unfold occurs. rewrite chars_uint8ArrayToBase64.
    intros Hc. apply in_app_or in Hc. destruct Hc as [Hc | Hc].
    + apply in_map_iff in Hc. destruct Hc as [i [<- _]].
      apply base64_char_in_alphabet.
    + right. apply repeat_spec in Hc. exact Hc.
  - unfold occurs. rewrite chars_uint8ArrayToBase64. split.
    + intros Hc. apply in_app_or in Hc. destruct Hc as [Hc | Hc].
      * exfalso. apply in_map_iff in Hc. destruct Hc as [i [E Hi]].
        pose proof (groups_range bytes) as Hr. rewrite Forall_forall in Hr.
        apply (base64_char_not_pad i (Hr i Hi) E).
      * destruct ((4 - (4 * length bytes + 2) / 3 mod 4) mod 4)%nat
          as [| k] eqn:Ek; [destruct Hc |].
        clear Hc. nat_div_mod.
    + intros Hn. apply in_or_app. right.
      destruct ((4 - (4 * length bytes + 2) / 3 mod 4) mod 4)%nat
        as [| k] eqn:Ek; [exfalso; nat_div_mod | left; reflexivity].
Qed.

Lemma uint8ArrayToBase64URL_inj (bytes1 bytes2 : list Z) :
  is_bytes bytes1 -> is_bytes bytes2 ->
  uint8ArrayToBase64URL bytes1 = uint8ArrayToBase64URL bytes2 ->
  bytes1 = bytes2.
Proof.
  intros H1 H2 E. apply (f_equal chars) in E.
  rewrite !chars_uint8ArrayToBase64URL in E.
  apply (f_equal (map url_unsafe)) in E.
  rewrite !url_unsafe_url_safe in E.
  apply (f_equal indices) in E.
  rewrite !indices_chars in E by apply groups_range.
  injection E as E. apply (f_equal unsextets) in E.
  rewrite !codes_of_bytes in E by assumption.
  rewrite !unsextets_sextets in E by assumption.
  exact E.
Qed.

(** X12.  The URL-safe text of [n] bytes has [ceil(4 n / 3)] characters, and
    two byte arrays with the same URL-safe text are the same array: the
    framing loses nothing. *)
Theorem uint8ArrayToBase64URL_injective (bytes1 bytes2 : list Z) :
  is_bytes bytes1 -> is_bytes bytes2 ->
  String.length (uint8ArrayToBase64URL bytes1)
  = ((4 * length bytes1 + 2) / 3)%nat
  /\ (uint8ArrayToBase64URL bytes1 = uint8ArrayToBase64URL bytes2 ->
      bytes1 = bytes2).
Proof.
  intros H1 H2. split.
  - rewrite <- length_chars, chars_uint8ArrayToBase64URL.
    rewrite !length_map, sextets_count, !length_map. reflexivity.
  - apply uint8ArrayToBase64URL_inj; assumption.
Qed.

Lemma uint8ArrayToBase64URL_injective_witness :
  is_bytes [1; 2] /\ is_bytes [1; 3]
  /\ String.length (uint8ArrayToBase64URL [1; 2])
     = ((4 * length [1; 2] + 2) / 3)%nat.
Proof.
  assert (H1 : is_bytes [1; 2]) by (repeat constructor; unfold is_byte; lia).
  assert (H2 : is_bytes [1; 3]) by (repeat constructor; unfold is_byte; lia).
  split; [exact H1 |]. split; [exact H2 |].
  apply (uint8ArrayToBase64URL_injective [1; 2] [1; 3] H1 H2).
Defined.

Lemma append_inv_head (p a b : string) :
  (p ++ a)%string = (p ++ b)%string -> a = b.
Proof.
  induction p as [| c p IH]; simpl; intros E; [exact E |].
  injection E as E. apply IH, E.
Qed.

Lemma generateMeshtasticURL_inj (config1 config2 : Config.t) :
  generateMeshtasticURL config1 = generateMeshtasticURL config2 ->
  buildChannelSet config1 = buildChannelSet config2.
Proof.
  unfold generateMeshtasticURL. intros E. apply append_inv_head in E.
  apply uint8ArrayToBase64URL_inj in E;
    [exact E | apply buildChannelSet_bytes | apply buildChannelSet_bytes].
Qed.

(** X13.  Two configs have the same URL exactly when they serialize to the
    same ChannelSet bytes: the URL determines the payload. *)
Theorem generateMeshtasticURL_injective (config1 config2 : Config.t) :
  generateMeshtasticURL config1 = generateMeshtasticURL config2
  <-> buildChannelSet config1 = buildChannelSet config2.
Proof.
  split; [apply generateMeshtasticURL_inj |].
  unfold generateMeshtasticURL. intros ->. reflexivity.
Qed.

End FramingProperties.

(** ** Private channels and their keys *)

Section PrivateChannels.

Local Opaque encodeField.

Lemma length_delimited_length (f : Z) (p1 p2 : list Z) :
  length p1 = length p2 ->
  length (length_delimited f p1) = length (length_delimited f p2).
Proof.
  intros E. unfold length_delimited. rewrite !length_app, E. reflexivity.
Qed.

Lemma length_delimited_inj (f : Z) (p1 p2 : list Z) :
  length p1 = length p2 ->
  length_delimited f p1 = length_delimited f p2 -> p1 = p2.
Proof.
  intros E H. unfold length_delimited in H. rewrite E in H.
  apply app_inv_head in H. apply app_inv_head in H. exact H.
Qed.

(** The settings of a private channel: the key field, then a tail that
    does not depend on the key. *)
Lemma private_settings_bytes (name psk : list Z) :
  is_bytes psk ->
  buildChannelSettings
    (ChannelSettings.mk None (Some psk) (Some name) (Some false) (Some false))
  = length_delimited 2 psk
      ++ field_name
           (ChannelSettings.mk None (Some psk) (Some name)
              (Some false) (Some false))
      ++ encodeBool 5 false ++ encodeBool 6 false.
Proof.
  intros H. rewrite buildChannelSettings_fields.
  unfold field_channelNum, field_psk, field_uplinkEnabled,
    field_downlinkEnabled, encodeBytes.
  cbn [ChannelSettings.channelNum ChannelSettings.psk
    ChannelSettings.uplinkEnabled ChannelSettings.downlinkEnabled app].
  rewrite (length_delimited_encodeField 2 psk) by (lia || assumption).
  reflexivity.
Qed.

Lemma private_config_inj (channelName : option (list Z)) (psk1 psk2 : list Z) :
  is_bytes psk1 -> is_bytes psk2 -> length psk1 = length psk2 ->
  buildChannelSet (privateChannelConfig channelName psk1)
  = buildChannelSet (privateChannelConfig channelName psk2) ->
  psk1 = psk2.
Proof.
  intros H1 H2 Hlen E.
  rewrite !buildChannelSet_fields in E.
  cbn [privateChannelConfig Config.channels Config.lora map concat] in E.
  apply app_inv_tail in E. rewrite !app_nil_r in E.
  rewrite !length_delimited_encodeField in E
    by (lia || apply buildChannel_bytes).
  rewrite !buildChannel_parts in E.
  cbn [Channel.index Channel.settings Channel.role] in E.
  rewrite !private_settings_bytes in E by assumption.
  unfold field_name in E. cbn [ChannelSettings.name] in E.
  set (tail :=
         match nameOrPrivate channelName with
         | [] => []
         | c :: s => encodeString 3 (c :: s)
         end ++ encodeBool 5 false ++ encodeBool 6 false) in E.
  assert (Hs : length (length_delimited 2 psk1 ++ tail)
               = length (length_delimited 2 psk2 ++ tail)).
  { rewrite !length_app, (length_delimited_length 2 psk1 psk2 Hlen).
    reflexivity. }
  apply length_delimited_inj in E.
  - apply app_inv_head in E. apply app_inv_tail in E.
    apply length_delimited_inj in E; [| exact Hs].
    apply app_inv_tail in E.
    apply length_delimited_inj in E; assumption.
  - rewrite !length_app, (length_delimited_length 2 _ _ Hs). reflexivity.
Qed.

Lemma uint8ArrayToBase64_inj (bytes1 bytes2 : list Z) :
  is_bytes bytes1 -> is_bytes bytes2 ->
  uint8ArrayToBase64 bytes1 = uint8ArrayToBase64 bytes2 -> bytes1 = bytes2.
Proof.
  intros H1 H2 E. apply (f_equal base64ToUint8Array) in E.
  rewrite !base64ToUint8Array_uint8ArrayToBase64 in E by assumption.
  injection E as E. exact E.
Qed.

(** X14.  For one name and two random sources, [generatePrivateChannelURL]
    returns the same URL exactly when the two sources deliver the same key,
    and the same [psk] text exactly then too: different keys always show in
    the link.  The random source left after a call starts 32 numbers further,
    so a second call draws its key from the next 32 numbers. *)
Theorem generatePrivateChannelURL_keys
  (channelName : option (list Z)) (random1 random2 : RandomSource) :
  let result1 := fst (generatePrivateChannelURL channelName random1) in
  let result2 := fst (generatePrivateChannelURL channelName random2) in
  let psk1 := fst (generateRandomPSK random1) in
  let psk2 := fst (generateRandomPSK random2) in
  (PrivateChannel.url result1 = PrivateChannel.url result2 <-> psk1 = psk2)
  /\ (PrivateChannel.psk result1 = PrivateChannel.psk result2 <-> psk1 = psk2)
  /\ fst (generateRandomPSK
            (snd (generatePrivateChannelURL channelName random1)))
     = map (fun i => ToUint8 (random1 (i + 32)%nat)) (seq 0 32).
Proof.
  intros result1 result2 psk1 psk2.
  destruct (generateRandomPSK_bytes random1) as [L1 B1].
  destruct (generateRandomPSK_bytes random2) as [L2 B2].
  fold psk1 in L1, B1. fold psk2 in L2, B2.
  assert (U1 : PrivateChannel.url result1
               = generateMeshtasticURL (privateChannelConfig channelName psk1))
    by reflexivity.
  assert (U2 : PrivateChannel.url result2
               = generateMeshtasticURL (privateChannelConfig channelName psk2))
    by reflexivity.
  assert (P1 : PrivateChannel.psk result1 = uint8ArrayToBase64 psk1)
    by reflexivity.
  assert (P2 : PrivateChannel.psk result2 = uint8ArrayToBase64 psk2)
    by reflexivity.
  split; [| split].
  - rewrite U1, U2. split.
    + intros E. apply generateMeshtasticURL_inj in E.
      apply (private_config_inj channelName psk1 psk2 B1 B2); [| exact E].
      rewrite L1, L2. reflexivity.
    + intros ->. reflexivity.
  - rewrite P1, P2. split.
    + apply uint8ArrayToBase64_inj; assumption.
    + intros ->. reflexivity.
  - reflexivity.
Qed.

End PrivateChannels.

(** * Properties of the companion application *)

(** ** Keys as base64 text *)

Section CryptoUtilsBase64.

Local Abbreviation chars := list_ascii_of_string.
Local Abbreviation str := string_of_list_ascii.

Ltac nat_div_mod := zify; Z.to_euclidean_division_equations; lia.

(** X15.  An array of bytes that the engine accepts as arguments is encoded
    by the application's [uint8ArrayToBase64] to the same text as by the QR
    generator's, and [base64ToUint8Array] decodes the text back to the
    array.  On an array longer than the engine's argument limit the
    application's call throws, where the QR generator's loop still returns a
    text that decodes to the array. *)
Theorem CryptoUtils_base64_round_trip (argumentsLimit : nat) (bytes : list Z) :
  is_bytes bytes ->
  base64ToUint8Array (uint8ArrayToBase64 bytes) = Some bytes
  /\ ((length bytes <= argumentsLimit)%nat ->
      CryptoUtils.uint8ArrayToBase64_call argumentsLimit bytes
      = Returned (uint8ArrayToBase64 bytes))
  /\ ((argumentsLimit < length bytes)%nat ->
      exists message,
        CryptoUtils.uint8ArrayToBase64_call argumentsLimit bytes
        = Thrown message).
Proof.
  intros H.
  split; [apply base64ToUint8Array_uint8ArrayToBase64, H |].
  unfold CryptoUtils.uint8ArrayToBase64_call.
  split; intros Hlen.
  - destruct (Nat.ltb_spec argumentsLimit (length bytes)) as [Hlt | _];
      [lia |].
    unfold CryptoUtils.uint8ArrayToBase64.
    rewrite uint8ArrayToBase64_btoa. reflexivity.
  - destruct (Nat.ltb_spec argumentsLimit (length bytes)) as [_ | Hle];
      [eauto | lia].
Qed.

Lemma CryptoUtils_base64_round_trip_witness :
  is_bytes [0; 255; 128]
  /\ base64ToUint8Array (uint8ArrayToBase64 [0; 255; 128])
     = Some [0; 255; 128]
  /\ CryptoUtils.uint8ArrayToBase64_call 1000 [0; 255; 128]
     = Returned (uint8ArrayToBase64 [0; 255; 128]).
Proof.
  assert (H : is_bytes [0; 255; 128])
    by (repeat constructor; unfold is_byte; lia).
  split; [exact H |].
  split.
  - apply (CryptoUtils_base64_round_trip 1000 [0; 255; 128] H).
  - apply (CryptoUtils_base64_round_trip 1000 [0; 255; 128] H). simpl. lia.
Defined.

Lemma getRandomValues_bytes (n : nat) (random : RandomSource) :
  fst (getRandomValues (Uint8Array_new n) random)
  = map (fun i => ToUint8 (random i)) (seq 0 n)
  /\ is_bytes (fst (getRandomValues (Uint8Array_new n) random))
  /\ length (fst (getRandomValues (Uint8Array_new n) random)) = n.
Proof.
  unfold getRandomValues, Uint8Array_new. cbn [fst].
  rewrite repeat_length. split; [reflexivity |]. split.
  - apply Forall_forall. intros b Hb. apply in_map_iff in Hb.
    destruct Hb as [i [<- _]]. unfold is_byte, ToUint8.
    apply Z.mod_pos_bound. lia.
  - rewrite length_map, length_seq. reflexivity.
Qed.

(** X16.  [generatePSK(bits)] takes [bits / 8] truncated toward zero as the
    number of bytes: when that number is from 0 to 65536 the call returns the
    padded base64 text of that many bytes of the random source, whether or
    not [bits] is a multiple of 8, and the text decodes to those bytes; when
    it is negative or above 65536 the call throws and the random source is
    left as it was.  The default is 256 bits. *)
Theorem generatePSK_behaviour (bits : Z) (random : RandomSource) :
  let n := Z.quot bits 8 in
  (0 <= n <= 65536 ->
   exists text,
     CryptoUtils.generatePSK (Some bits) random
     = (Returned text, fun i => random (i + Z.to_nat n)%nat)
     /\ base64ToUint8Array text
        = Some (map (fun i => ToUint8 (random i)) (seq 0 (Z.to_nat n)))
     /\ String.length text = (4 * ((Z.to_nat n + 2) / 3))%nat)
  /\ (n < 0 \/ 65536 < n ->
      exists message,
        CryptoUtils.generatePSK (Some bits) random = (Thrown message, random))
  /\ CryptoUtils.generatePSK None random
     = CryptoUtils.generatePSK (Some 256) random.
Proof.
  intros n. split; [| split].
  - intros Hn. unfold CryptoUtils.generatePSK. fold n.
    destruct (Z.ltb_spec n 0) as [Hneg | _]; [lia |].
    destruct (Z.ltb_spec (2 ^ 53 - 1) n) as [Hhuge | _]; [lia |].
    cbn [orb].
    destruct (Z.ltb_spec 65536 n) as [Hbig | _]; [lia |].
    destruct (getRandomValues_bytes (Z.to_nat n) random) as [E [B L]].
    rewrite E in B, L.
    assert (LN : length (Uint8Array_new (Z.to_nat n)) = Z.to_nat n)
      by apply repeat_length.
    unfold getRandomValues. rewrite LN.
    eexists. split; [reflexivity |]. split.
    + unfold CryptoUtils.uint8ArrayToBase64.
      rewrite <- uint8ArrayToBase64_btoa.
      rewrite base64ToUint8Array_uint8ArrayToBase64 by exact B.
      reflexivity.
    + unfold CryptoUtils.uint8ArrayToBase64.
      rewrite <- uint8ArrayToBase64_btoa.
      rewrite <- length_chars, chars_uint8ArrayToBase64.
      rewrite length_app, length_map, sextets_count, repeat_length,
        !length_map, length_seq.
      clear. nat_div_mod.
  - intros Hn. unfold CryptoUtils.generatePSK. fold n.
    destruct (Z.ltb_spec n 0) as [Hneg | Hpos]; [cbn [orb]; eauto |].
    destruct (Z.ltb_spec (2 ^ 53 - 1) n) as [Hhuge | _];
      [cbn [orb]; eauto |].
    cbn [orb].
    destruct (Z.ltb_spec 65536 n) as [Hbig | Hsmall]; [eauto | lia].
  - reflexivity.
Qed.

Lemma generatePSK_behaviour_witness :
  0 <= Z.quot 255 8 <= 65536
  /\ exists text,
       CryptoUtils.generatePSK (Some 255) (fun i => Z.of_nat i)
       = (Returned text, fun i => Z.of_nat (i + Z.to_nat (Z.quot 255 8)))
       /\ base64ToUint8Array text
          = Some (map (fun i => ToUint8 (Z.of_nat i))
                    (seq 0 (Z.to_nat (Z.quot 255 8))))
       /\ String.length text = (4 * ((Z.to_nat (Z.quot 255 8) + 2) / 3))%nat.
Proof.
  assert (H : 0 <= Z.quot 255 8 <= 65536) by (vm_compute; split; discriminate).
  split; [exact H |].
  apply (generatePSK_behaviour 255 (fun i => Z.of_nat i)), H.
Defined.

End CryptoUtilsBase64.

(** ** Safety numbers *)

Section SafetyNumbers.

Import CryptoUtils.

Local Abbreviation chars := list_ascii_of_string.
Local Abbreviation str := string_of_list_ascii.

Ltac nat_div_mod := zify; Z.to_euclidean_division_equations; lia.

Lemma take_dots_plain (n : nat) (l : list ascii) :
  (forall c, In c l -> is_line_terminator c = false) ->
  take_dots n l = (firstn n l, skipn n l).
Proof.
  revert l. induction n as [| n IH]; intros [| x l] H; try reflexivity.
  cbn [take_dots firstn skipn].
  rewrite (H x) by (left; reflexivity).
  rewrite IH by (intros c Hc; apply H; right; exact Hc). reflexivity.
Qed.

Lemma match_dot_1_5_plain (c : ascii) (rest : list ascii) :
  (forall x, In x (c :: rest) -> is_line_terminator x = false) ->
  match_dot_1_5 (c :: rest)
  = (c :: firstn 4 rest) :: match_dot_1_5 (skipn 4 rest).
Proof.
  intros H. rewrite match_dot_1_5_equation_2.
  unfold match_dot_1_5_unfold_clause_2.
  rewrite (H c) by (left; reflexivity).
  rewrite take_dots_plain by (intros x Hx; apply H; right; exact Hx).
  reflexivity.
Qed.

(** The matches of a text without line terminators: consecutive groups of
    five characters, the last one possibly shorter. *)
Lemma groups_of_five (l : list ascii) :
  (forall c, In c l -> is_line_terminator c = false) ->
  concat (match_dot_1_5 l) = l
  /\ Forall (fun g => length g = 5%nat) (removelast (match_dot_1_5 l))
  /\ Forall (fun g => (1 <= length g <= 5)%nat) (match_dot_1_5 l)
  /\ length (match_dot_1_5 l) = ((length l + 4) / 5)%nat.
Proof.
  assert (Hn : (length l <= length l)%nat) by lia.
  revert Hn. generalize (length l) at 2. intros n. revert l.
  induction n as [| n IH]; intros l Hn H.
  - destruct l; [| simpl in Hn; lia].
    rewrite match_dot_1_5_equation_1. cbn [removelast concat length].
    repeat split; constructor.
  - destruct l as [| c rest].
    { rewrite match_dot_1_5_equation_1. cbn [removelast concat length].
      repeat split; constructor. }
    rewrite match_dot_1_5_plain by exact H.
    assert (Hs : forall x, In x (skipn 4 rest) -> is_line_terminator x = false).
    { intros x Hx. apply H. right.
      rewrite <- (firstn_skipn 4 rest). apply in_or_app. right. exact Hx. }
    assert (Ls : (length (skipn 4 rest) <= n)%nat).
    { rewrite length_skipn. simpl in Hn. lia. }
    destruct (IH (skipn 4 rest) Ls Hs) as [C [F5 [B N]]].
    assert (Lf : length (firstn 4 rest) = Nat.min 4 (length rest))
      by apply length_firstn.
    split; [| split; [| split]].
    + cbn [concat]. rewrite C. cbn [app]. rewrite firstn_skipn. reflexivity.
    + destruct (match_dot_1_5 (skipn 4 rest)) as [| g gs] eqn:Eg.
      * constructor.
      * change (removelast ((c :: firstn 4 rest) :: g :: gs))
          with ((c :: firstn 4 rest) :: removelast (g :: gs)).
        constructor; [| exact F5].
        cbn [length] in N |- *. rewrite length_skipn in N.
        rewrite Lf. revert N. clear. intros N.
        assert (4 < length rest)%nat; [| lia].
        destruct (Nat.le_gt_cases (length rest) 4) as [Hle | Hgt];
          [| exact Hgt].
        exfalso. replace (length rest - 4)%nat with 0%nat in N by lia.
        cbn in N. discriminate N.
    + constructor; [| exact B]. cbn [length]. rewrite Lf. lia.
    + cbn [length]. rewrite N, length_skipn. clear. nat_div_mod.
Qed.

Lemma string_length_append (a b : string) :
  String.length (a ++ b) = (String.length a + String.length b)%nat.
Proof.
  rewrite <- !length_chars, chars_append. apply length_app.
Qed.

Lemma length_join_space (groups : list (list ascii)) :
  String.length (String.concat " " (map str groups))
  = (list_sum (map (@length ascii) groups) + (length groups - 1))%nat.
Proof.
  induction groups as [| g gs IH]; [reflexivity |].
  destruct gs as [| g' gs'].
  - simpl. rewrite <- length_chars, list_ascii_of_string_of_list_ascii. lia.
  - change (String.concat " " (map str (g :: g' :: gs')))
      with (str g ++ " " ++ String.concat " " (map str (g' :: gs')))%string.
    rewrite !string_length_append, IH.
    rewrite <- (length_chars (str g)), list_ascii_of_string_of_list_ascii.
    simpl. lia.
Qed.

Lemma no_line_terminator_check (num : string) :
  forallb (fun c => negb (is_line_terminator c)) (chars num) = true ->
  forall c, occurs c num -> is_line_terminator c = false.
Proof.
  intros H c Hc. rewrite forallb_forall in H.
  specialize (H c Hc). destruct (is_line_terminator c);
    [discriminate | reflexivity].
Qed.

Lemma formatSafetyNumber_plain (num : string) :
  (forall c, occurs c num -> is_line_terminator c = false) ->
  formatSafetyNumber num
  = String.concat " " (map str (match_dot_1_5 (chars num)))
  /\ String.length (formatSafetyNumber num)
     = (String.length num + (String.length num - 1) / 5)%nat.
Proof.
  intros H. destruct (groups_of_five (chars num) H) as [C [_ [_ N]]].
  assert (E : formatSafetyNumber num
              = String.concat " " (map str (match_dot_1_5 (chars num)))).
  { unfold formatSafetyNumber.
    destruct (match_dot_1_5 (chars num)) as [| g gs] eqn:Eg; [| reflexivity].
    cbn [concat] in C. cbn [map String.concat].
    apply chars_inj. rewrite <- C. reflexivity. }
  split; [exact E |].
  rewrite E, length_join_space, N, <- length_concat, C, length_chars.
  clear. nat_div_mod.
Qed.

(** X17.  On a text without line terminators [formatSafetyNumber] cuts the
    text into consecutive groups of five characters, the last group holding
    what is left (one to five characters), and joins them with single
    spaces: no character is lost or added besides the spaces, and a text of
    [n] characters becomes one of [n + (n - 1) / 5]; the empty text stays
    empty. *)
Theorem formatSafetyNumber_groups (num : string) :
  (forall c, occurs c num -> is_line_terminator c = false) ->
  let groups := match_dot_1_5 (chars num) in
  formatSafetyNumber num = String.concat " " (map str groups)
  /\ concat groups = chars num
  /\ Forall (fun g => length g = 5%nat) (removelast groups)
  /\ Forall (fun g => (1 <= length g <= 5)%nat) groups
  /\ String.length (formatSafetyNumber num)
     = (String.length num + (String.length num - 1) / 5)%nat.
Proof.
  intros H groups.
  destruct (groups_of_five (chars num) H) as [C [F5 [B _]]].
  destruct (formatSafetyNumber_plain num H) as [E L].
  repeat split; assumption.
Qed.

Lemma formatSafetyNumber_groups_witness :
  (forall c, occurs c "123456789012" -> is_line_terminator c = false)
  /\ formatSafetyNumber "123456789012"
     = String.concat " "
         (map str (match_dot_1_5 (chars "123456789012"))).
Proof.
  assert (H : forall c, occurs c "123456789012" ->
                        is_line_terminator c = false).
  { apply no_line_terminator_check. reflexivity. }
  split; [exact H | apply (formatSafetyNumber_groups "123456789012" H)].
Defined.

End SafetyNumbers.

Section SafetyNumberDigits.

Import CryptoUtils.

Local Abbreviation chars := list_ascii_of_string.
Local Abbreviation str := string_of_list_ascii.

(** The three characters a byte contributes. *)
Local Abbreviation three_digits b := (padStart 3 "0" (Number_toString b)).

Lemma three_digits_byte (b : Z) :
  is_byte b ->
  length (chars (three_digits b)) = 3%nat
  /\ (forall c, In c (chars (three_digits b)) -> In c (chars "0123456789")).
Proof.
  intros Hb.
  assert (H : forallb
                (fun n =>
                   let l := chars (three_digits (Z.of_nat n)) in
                   (length l =? 3)%nat
                   && forallb
                        (fun c => existsb (Ascii.eqb c) (chars "0123456789")) l)
                (seq 0 256) = true) by (vm_compute; reflexivity).
  rewrite forallb_forall in H.
  specialize (H (Z.to_nat b)). unfold is_byte in Hb.
  rewrite Z2Nat.id in H by lia.
  specialize (H ltac:(apply in_seq; lia)). cbv zeta in H.
  apply andb_true_iff in H. destruct H as [H1 H2].
  split; [apply Nat.eqb_eq, H1 |].
  intros c Hc. rewrite forallb_forall in H2. specialize (H2 c Hc).
  apply existsb_exists in H2. destruct H2 as [d [Hd E]].
  apply Ascii.eqb_eq in E. subst d. exact Hd.
Qed.

Lemma chars_concat_empty (l : list string) :
  chars (String.concat "" l) = concat (map chars l).
Proof.
  induction l as [| s l IH]; [reflexivity |].
  destruct l as [| s' l'].
  - simpl. rewrite app_nil_r. reflexivity.
  - change (String.concat "" (s :: s' :: l'))
      with (s ++ "" ++ String.concat "" (s' :: l'))%string.
    rewrite chars_append. cbn [append]. rewrite IH. reflexivity.
Qed.

Lemma chars_substring_0 (n : nat) (s : string) :
  chars (substring 0 n s) = firstn n (chars s).
Proof.
  revert s. induction n as [| n IH]; intros [| c s]; try reflexivity.
  cbn [substring list_ascii_of_string firstn]. rewrite IH. reflexivity.
Qed.

Lemma firstn_concat_uniform {A : Type} (m k : nat) (ls : list (list A)) :
  Forall (fun g => length g = m) ls ->
  firstn (k * m) (concat ls) = concat (firstn k ls).
Proof.
  intros H. revert k. induction H as [| g ls Hg _ IH]; intros [| k];
    try reflexivity.
  - cbn [Nat.mul firstn concat]. rewrite firstn_nil. reflexivity.
  - cbn [Nat.mul firstn concat].
    rewrite firstn_app, firstn_all2 by lia.
    replace (m + k * m - length g)%nat with (k * m)%nat by lia.
    rewrite IH. reflexivity.
Qed.

Lemma firstn_In {A : Type} (n : nat) (l : list A) (x : A) :
  In x (firstn n l) -> In x l.
Proof.
  intros H. rewrite <- (firstn_skipn n l). apply in_or_app. left. exact H.
Qed.

(** X18.  When the digest has at least 20 bytes (SHA-256 has 32),
    [createSafetyNumber] returns exactly 60 decimal digits: the first 20
    bytes of the digest, each written with three digits; the other bytes of
    the digest do not count.  [formatSafetyNumber] turns it into twelve
    groups of five digits, 71 characters.  Node id and key are hashed as one
    string with nothing between them, so moving characters from the end of
    the one to the start of the other gives the same number. *)
Theorem createSafetyNumber_digits
  (digest : list Z -> list Z) (nodeId psk : list Z) :
  (20 <= length (digest (TextEncoder_encode (nodeId ++ psk))))%nat ->
  let hashArray :=
    Uint8Array_from (digest (TextEncoder_encode (nodeId ++ psk))) in
  let number := createSafetyNumber digest nodeId psk in
  String.length number = 60%nat
  /\ (forall c, occurs c number -> In c (chars "0123456789"))
  /\ number
     = String.concat "" (map (fun b => three_digits b) (firstn 20 hashArray))
  /\ String.length (formatSafetyNumber number) = 71%nat
  /\ (forall a b c,
        createSafetyNumber digest (a ++ b) c
        = createSafetyNumber digest a (b ++ c)).
Proof.
  intros Hlen hashArray number.
  assert (Hbytes : is_bytes hashArray) by apply is_bytes_from.
  assert (Hl : (20 <= length hashArray)%nat).
  { unfold hashArray, Uint8Array_from. rewrite length_map. exact Hlen. }
  assert (Huni : Forall (fun g => length g = 3%nat)
                   (map chars (map (fun b => three_digits b) hashArray))).
  { apply Forall_forall. intros g Hg. rewrite map_map in Hg.
    apply in_map_iff in Hg. destruct Hg as [b [<- Hb]].
    unfold is_bytes in Hbytes. rewrite Forall_forall in Hbytes.
    apply three_digits_byte, Hbytes, Hb. }
  assert (Hc : chars number
               = concat (map chars
                           (map (fun b => three_digits b)
                              (firstn 20 hashArray)))).
  { unfold number, createSafetyNumber. fold hashArray.
    rewrite chars_substring_0, chars_concat_empty.
    change 60%nat with (20 * 3)%nat.
    rewrite (firstn_concat_uniform 3 20 _ Huni), !firstn_map.
    reflexivity. }
  assert (Hdig : forall c, occurs c number -> In c (chars "0123456789")).
  { intros c. unfold occurs. rewrite Hc, map_map. intros Hin.
    apply in_concat in Hin. destruct Hin as [g [Hg Hcg]].
    apply in_map_iff in Hg. destruct Hg as [b [<- Hb]].
    apply firstn_In in Hb.
    unfold is_bytes in Hbytes. rewrite Forall_forall in Hbytes.
    apply (three_digits_byte b (Hbytes b Hb)), Hcg. }
  assert (H60 : String.length number = 60%nat).
  { rewrite <- length_chars, Hc, length_concat, !map_map.
    rewrite (map_ext_in _ (fun _ => 3%nat)).
    - rewrite map_const, length_firstn, Nat.min_l by exact Hl. reflexivity.
    - intros b Hb. apply firstn_In in Hb.
      unfold is_bytes in Hbytes. rewrite Forall_forall in Hbytes.
      apply three_digits_byte, Hbytes, Hb. }
  split; [exact H60 |]. split; [exact Hdig |]. split.
  { apply chars_inj. rewrite Hc, chars_concat_empty. reflexivity. }
  split.
  { assert (Hplain : forall c, occurs c number ->
                               is_line_terminator c = false).
    { intros c Hcn. specialize (Hdig c Hcn). cbn in Hdig.
      repeat (destruct Hdig as [<- | Hdig]; [reflexivity |]).
      destruct Hdig. }
    destruct (formatSafetyNumber_plain number Hplain) as [_ L].
    rewrite L, H60. reflexivity. }
  intros a b c. unfold createSafetyNumber. rewrite <- app_assoc.
  reflexivity.
Qed.

Lemma createSafetyNumber_digits_witness :
  Nat.le 20
    (length ((fun _ : list Z => repeat 7 32)
               (TextEncoder_encode ([33; 65] ++ [66]))))
  /\ String.length (createSafetyNumber (fun _ => repeat 7 32) [33; 65] [66])
     = 60%nat.
Proof.
  assert (H : Nat.le 20
                (length ((fun _ : list Z => repeat 7 32)
                           (TextEncoder_encode ([33; 65] ++ [66])))))
    by (cbv beta; rewrite repeat_length; unfold Nat.le; lia).
  split; [exact H |].
  apply (createSafetyNumber_digits (fun _ => repeat 7 32) [33; 65] [66] H).
Defined.

End SafetyNumberDigits.

(** ** Identifiers, configuration steps, channel allocation *)

Section Identifiers.

Import CryptoUtils.

Local Abbreviation chars := list_ascii_of_string.

Lemma hex_digit_hex (v : Z) : In (hex_digit v) (chars "0123456789abcdef").
Proof.
  unfold hex_digit.
  destruct (nth_in_or_default (Z.to_nat v) (chars "0123456789abcdef") "0"%char)
    as [H | ->]; [exact H | left; reflexivity].
Qed.

Lemma hex_digit_variant (r : Z) :
  0 <= r < 16 -> In (hex_digit (bitor (bitand r 0x3) 0x8)) (chars "89ab").
Proof.
  intros Hr.
  assert (H : forallb
                (fun n =>
                   existsb
                     (Ascii.eqb
                        (hex_digit (bitor (bitand (Z.of_nat n) 0x3) 0x8)))
                     (chars "89ab"))
                (seq 0 16) = true) by (vm_compute; reflexivity).
  rewrite forallb_forall in H. specialize (H (Z.to_nat r)).
  rewrite Z2Nat.id in H by lia.
  specialize (H ltac:(apply in_seq; lia)).
  apply existsb_exists in H. destruct H as [d [Hd E]].
  apply Ascii.eqb_eq in E. rewrite E. exact Hd.
Qed.

Lemma replace_xy_chars (template : string) (random : RandomSource) :
  Forall2 uuid_char
    (chars template) (chars (fst (replace_xy template random))).
Proof.
  revert random. induction template as [| t rest IH]; intros random.
  - constructor.
  - cbn [replace_xy].
    destruct (Ascii.eqb_spec t "x") as [-> | Hx].
    + cbn [orb].
      specialize (IH (fun i => random (S i))).
      destruct (replace_xy rest (fun i => random (S i))) as [out random'].
      cbn [fst list_ascii_of_string] in *.
      constructor; [| exact IH].
      unfold uuid_char. rewrite Ascii.eqb_refl. apply hex_digit_hex.
    + cbn [orb]. destruct (Ascii.eqb_spec t "y") as [-> | Hy].
      * specialize (IH (fun i => random (S i))).
        destruct (replace_xy rest (fun i => random (S i))) as [out random'].
        cbn [fst list_ascii_of_string] in *.
        constructor; [| exact IH].
        unfold uuid_char. change (Ascii.eqb "y" "x") with false.
        rewrite Ascii.eqb_refl.
        apply hex_digit_variant, Z.mod_pos_bound. lia.
      * specialize (IH random).
        destruct (replace_xy rest random) as [out random'].
        cbn [fst list_ascii_of_string] in *.
        constructor; [| exact IH]. unfold uuid_char.
        destruct (Ascii.eqb_spec t "x") as [E | _]; [contradiction |].
        destruct (Ascii.eqb_spec t "y") as [E | _]; [contradiction |].
        reflexivity.
Qed.

(** X19.  Whatever [Math.random] returns, [generateUUID] gives 36
    characters in the layout of a version-4 UUID: hyphens at positions 8, 13,
    18 and 23, the digit 4 at position 14, one of 8, 9, a, b at position 19,
    and a lower-case hexadecimal digit everywhere else; it draws 31 random
    numbers. *)
Theorem generateUUID_format (random : RandomSource) :
  let uuid := fst (generateUUID random) in
  Forall2 uuid_char
    (chars "xxxxxxxx-xxxx-4xxx-yxxx-xxxxxxxxxxxx") (chars uuid)
  /\ String.length uuid = 36%nat
  /\ String.get 8 uuid = Some "-"%char
  /\ String.get 13 uuid = Some "-"%char
  /\ String.get 14 uuid = Some "4"%char
  /\ String.get 18 uuid = Some "-"%char
  /\ String.get 23 uuid = Some "-"%char
  /\ (exists c, String.get 19 uuid = Some c /\ In c (chars "89ab"))
  /\ snd (generateUUID random) = fun i => random (31 + i)%nat.
Proof.
  intros uuid.
  pose proof (replace_xy_chars "xxxxxxxx-xxxx-4xxx-yxxx-xxxxxxxxxxxx" random)
    as H.
  fold (generateUUID random) in H. fold uuid in H.
  split; [exact H |].
  split.
  { rewrite <- length_chars. apply Forall2_length in H. rewrite <- H.
    reflexivity. }
  repeat (split; [reflexivity |]).
  split; [| reflexivity].
  eexists. split; [reflexivity |].
  apply hex_digit_variant, Z.mod_pos_bound. lia.
Qed.

End Identifiers.

Section ConfigurationSteps.

Lemma indexOf_bounds (l : list string) (x : string) :
  -1 <= indexOf l x < Z.of_nat (length l).
Proof.
  induction l as [| y l IH]; cbn [indexOf length]; [lia |].
  destruct (String.eqb y x); [lia |].
  destruct (Z.ltb_spec (indexOf l x) 0); lia.
Qed.

Lemma indexOf_member (l : list string) (x : string) :
  (In x l -> 0 <= indexOf l x) /\ (~ In x l -> indexOf l x = -1).
Proof.
  induction l as [| y l [IH1 IH2]]; cbn [indexOf].
  - split; [intros [] | reflexivity].
  - destruct (String.eqb_spec y x) as [-> | Hne].
    + split; [lia | intros H; exfalso; apply H; left; reflexivity].
    + split.
      * intros [E | Hin]; [contradiction |]. specialize (IH1 Hin).
        destruct (Z.ltb_spec (indexOf l x) 0); lia.
      * intros Hn.
        rewrite IH2 by (intros Hin; apply Hn; right; exact Hin).
        reflexivity.
Qed.

(** X20.  [isStepBefore] is a strict order on step names (nothing is before
    itself, and it is transitive); a name that is not among the eight steps
    counts as before every one of the eight and no step is before it; and
    nothing comes after [done]. *)
Theorem isStepBefore_order :
  let order :=
    ["region"; "radio"; "channel"; "battery"; "position"; "role"; "verify";
     "done"]%string in
  (forall a, isStepBefore a a = false)
  /\ (forall a b c,
        isStepBefore a b = true -> isStepBefore b c = true ->
        isStepBefore a c = true)
  /\ (forall step other,
        In step order -> ~ In other order ->
        isStepBefore other step = true /\ isStepBefore step other = false)
  /\ (forall a, isStepBefore "done" a = false).
Proof.
  intros order. unfold isStepBefore. fold order.
  split; [intros a; apply Z.ltb_irrefl |].
  split.
  { intros a b c H1 H2. apply Z.ltb_lt in H1, H2. apply Z.ltb_lt. lia. }
  split.
  { intros step other Hin Hout.
    destruct (indexOf_member order step) as [Hs _].
    destruct (indexOf_member order other) as [_ Ho].
    specialize (Hs Hin). rewrite (Ho Hout).
    split; [apply Z.ltb_lt | apply Z.ltb_ge]; lia. }
  intros a. apply Z.ltb_ge.
  pose proof (indexOf_bounds order a) as Hb.
  change (indexOf order "done") with 7.
  change (Z.of_nat (length order)) with 8 in Hb. lia.
Qed.

End ConfigurationSteps.

Section ChannelAllocation.

Lemma includes_In (l : list Z) (x : Z) : includes l x = true <-> In x l.
Proof.
  unfold includes. rewrite existsb_exists. split.
  - intros [y [Hy E]]. apply Z.eqb_eq in E. subst y. exact Hy.
  - intros H. exists x. split; [exact H | apply Z.eqb_refl].
Qed.

(** X21.  The channel chosen for a new conversation is the lowest of 1 to 7
    that no stored conversation uses; it is never 0, the primary channel, and
    never one in use.  The error [Maximum conversations reached (7)] is
    thrown exactly when channels 1 to 7 are all in use. *)
Theorem availableChannel_lowest_free (usedChannels : list Z) :
  (forall channel,
     availableChannel usedChannels = Returned channel ->
     1 <= channel <= 7
     /\ ~ In channel usedChannels
     /\ (forall i, 1 <= i < channel -> In i usedChannels))
  /\ ((exists message, availableChannel usedChannels = Thrown message)
      <-> (forall i, 1 <= i <= 7 -> In i usedChannels))
  /\ (forall message,
        availableChannel usedChannels = Thrown message ->
        message = "Maximum conversations reached (7)"%string).
Proof.
  unfold availableChannel. cbn [find].
  destruct (includes usedChannels 1) eqn:E1;
    [destruct (includes usedChannels 2) eqn:E2;
       [destruct (includes usedChannels 3) eqn:E3;
          [destruct (includes usedChannels 4) eqn:E4;
             [destruct (includes usedChannels 5) eqn:E5;
                [destruct (includes usedChannels 6) eqn:E6;
                   [destruct (includes usedChannels 7) eqn:E7 | ] | ] | ] | ]
       | ] | ];
    cbn [negb];
    repeat match goal with
           | H : includes _ _ = true |- _ => apply includes_In in H
           | H : includes _ _ = false |- _ =>
               apply not_true_iff_false in H; rewrite includes_In in H
           end;
    (split; [| split]);
    try (intros channel Hc; first [discriminate Hc | injection Hc as <-];
         split; [lia |]; split; [assumption |];
         intros i Hi;
         assert (Hcase : i = 1 \/ i = 2 \/ i = 3 \/ i = 4 \/ i = 5 \/ i = 6)
           by lia;
         repeat (destruct Hcase as [-> | Hcase]; [assumption || lia |]);
         subst i; assumption || lia);
    try (intros message Hm; first [discriminate Hm | injection Hm as <-];
         reflexivity).
  all: split.
  all: try (intros [message Hm]; discriminate Hm).
  all: try (intros Hall; exfalso;
            first [ apply E1, Hall; lia | apply E2, Hall; lia
                  | apply E3, Hall; lia | apply E4, Hall; lia
                  | apply E5, Hall; lia | apply E6, Hall; lia
                  | apply E7, Hall; lia ]).
  - intros _ i Hi.
    assert (Hcase : i = 1 \/ i = 2 \/ i = 3 \/ i = 4 \/ i = 5 \/ i = 6 \/ i = 7)
      by lia.
    repeat (destruct Hcase as [-> | Hcase]; [assumption |]).
    subst i. assumption.
  - intros _. eexists. reflexivity.
Qed.

End ChannelAllocation.

(** * Properties of the step wizard *)

Section WizardProperties.

Import Wizard.

Lemma forEach_from_length {A : Type} (start : Z) (f : A -> Z -> A) (l : list A) :
  length (forEach_from start f l) = length l.
Proof.
  revert start. induction l as [| x l IH]; intros start; simpl;
    [reflexivity | rewrite IH; reflexivity].
Qed.

Lemma forEach_from_nth {A : Type} (start : Z) (f : A -> Z -> A) (l : list A)
  (k : nat) :
  nth_error (forEach_from start f l) k
  = option_map (fun x => f x (start + Z.of_nat k)) (nth_error l k).
Proof.
  revert start k. induction l as [| x l IH]; intros start [| k];
    try reflexivity.
  - cbn [forEach_from nth_error option_map]. rewrite Z.add_0_r. reflexivity.
  - cbn [forEach_from nth_error]. rewrite IH.
    replace (start + 1 + Z.of_nat k) with (start + Z.of_nat (S k)) by lia.
    reflexivity.
Qed.

Lemma forEach_from_ids (start i : Z) (l : list step) :
  map id (forEach_from start (fun s index => mkStep (id s) (index =? i)) l)
  = map id l.
Proof.
  revert start. induction l as [| x l IH]; intros start; simpl;
    [reflexivity | rewrite IH; reflexivity].
Qed.

Lemma forEach_from_one_active (start i : Z) (l : list step) :
  count_occ bool_dec
    (map active
       (forEach_from start (fun s index => mkStep (id s) (index =? i)) l))
    true
  = if (start <=? i) && (i <? start + Z.of_nat (length l)) then 1%nat
    else 0%nat.
Proof.
  revert start. induction l as [| x l IH]; intros start.
  - cbn [forEach_from map count_occ length].
    destruct (Z.leb_spec start i); destruct (Z.ltb_spec i (start + Z.of_nat 0));
      cbn [andb]; lia || reflexivity.
  - cbn [forEach_from map count_occ active]. rewrite IH.
    cbn [length]. rewrite Nat2Z.inj_succ.
    destruct (Z.eqb_spec start i) as [E | E];
      destruct (bool_dec _ true) as [T | T]; try discriminate T;
      try (exfalso; apply T; reflexivity);
      destruct (Z.leb_spec (start + 1) i);
      destruct (Z.ltb_spec i (start + 1 + Z.of_nat (length l)));
      destruct (Z.leb_spec start i);
      destruct (Z.ltb_spec i (start + Z.succ (Z.of_nat (length l))));
      cbn [andb]; lia || reflexivity.
Qed.

(** X22.  A [goToStep] inside the range of the steps makes its argument the
    current step and leaves exactly one step content active, the one at that
    index; every progress step before it is completed and not active, the one
    at the index is active and not completed, the ones behind are neither;
    the connectors before the index are active and the others are not.  The
    ids and the numbers of elements stay as they were. *)
Theorem goToStep_effect (stepIndex : Z) (w : Wizard.t) :
  0 <= stepIndex < Z.of_nat (length (steps w)) ->
  let w' := goToStep stepIndex w in
  currentStep w' = stepIndex
  /\ map id (steps w') = map id (steps w)
  /\ (forall k s, nth_error (steps w') k = Some s ->
      active s = (Z.of_nat k =? stepIndex))
  /\ count_occ bool_dec (map active (steps w')) true = 1%nat
  /\ (forall k p, nth_error (progressSteps w') k = Some p ->
      progress_completed p = (Z.of_nat k <? stepIndex)
      /\ progress_active p = (Z.of_nat k =? stepIndex))
  /\ length (progressSteps w') = length (progressSteps w)
  /\ (forall k c, nth_error (connectors w') k = Some c ->
      c = (Z.of_nat k <? stepIndex))
  /\ length (connectors w') = length (connectors w).
Proof.
  intros Hi w'. subst w'. unfold goToStep.
  destruct (Z.ltb_spec stepIndex 0) as [Hneg | _]; [lia |].
  destruct (Z.geb_spec stepIndex (Z.of_nat (length (steps w)))) as [Hbig | _];
    [lia |].
  cbn [orb steps progressSteps connectors currentStep]. unfold forEach.
  split; [reflexivity |].
  split; [apply forEach_from_ids |].
  split.
  { intros k s Hk. rewrite forEach_from_nth in Hk.
    destruct (nth_error (steps w) k); [| discriminate].
    cbn [option_map] in Hk. injection Hk as <-. reflexivity. }
  split.
  { rewrite forEach_from_one_active.
    destruct (Z.leb_spec 0 stepIndex); [| lia].
    destruct (Z.ltb_spec stepIndex (0 + Z.of_nat (length (steps w))));
      [reflexivity | lia]. }
  split.
  { intros k p Hk. rewrite forEach_from_nth in Hk.
    destruct (nth_error (progressSteps w) k); [| discriminate].
    cbn [option_map] in Hk. injection Hk as <-.
    change (0 + Z.of_nat k) with (Z.of_nat k).
    destruct (Z.ltb_spec (Z.of_nat k) stepIndex);
      destruct (Z.eqb_spec (Z.of_nat k) stepIndex);
      cbn [progress_completed progress_active]; split; reflexivity || lia. }
  split; [apply forEach_from_length |].
  split; [| apply forEach_from_length].
  intros k c Hk. rewrite forEach_from_nth in Hk.
  destruct (nth_error (connectors w) k); [| discriminate].
  cbn [option_map] in Hk. injection Hk as <-. reflexivity.
Qed.

Lemma goToStep_effect_witness :
  0 <= 2
     < Z.of_nat
         (length
            (steps
               (Wizard.mk [mkStep "one" true; mkStep "two" false; mkStep "" false]
          [mkProgress true false; mkProgress false false;
           mkProgress false false]
          [false; false] 0 None)))
  /\ currentStep
       (goToStep 2
          (Wizard.mk [mkStep "one" true; mkStep "two" false; mkStep "" false]
          [mkProgress true false; mkProgress false false;
           mkProgress false false]
          [false; false] 0 None))
     = 2.
Proof.
  split; [cbn; lia |].
  apply (goToStep_effect 2
           (Wizard.mk [mkStep "one" true; mkStep "two" false; mkStep "" false]
          [mkProgress true false; mkProgress false false;
           mkProgress false false]
          [false; false] 0 None)).
  cbn. lia.
Defined.

Lemma goToStep_steps (stepIndex : Z) (w : Wizard.t) :
  length (steps (goToStep stepIndex w)) = length (steps w)
  /\ map id (steps (goToStep stepIndex w)) = map id (steps w)
  /\ (currentStep (goToStep stepIndex w) = currentStep w
      \/ (currentStep (goToStep stepIndex w) = stepIndex
          /\ 0 <= stepIndex < Z.of_nat (length (steps w)))).
Proof.
  unfold goToStep.
  destruct (Z.ltb_spec stepIndex 0) as [Hneg | Hpos];
    [cbn [orb]; auto |].
  destruct (Z.geb_spec stepIndex (Z.of_nat (length (steps w)))) as [Hbig | Hin];
    [cbn [orb]; auto |].
  cbn [orb steps currentStep]. unfold forEach.
  split; [apply forEach_from_length |].
  split; [apply forEach_from_ids |].
  right. split; [reflexivity | lia].
Qed.

(** X23.  Starting with [currentStep] at 0, whatever buttons and progress
    steps are clicked, [currentStep] stays a valid index of the steps (or 0
    when there is no step), and the steps keep their number and their ids.
    Next on the last step and Back on the first change nothing, Next and Back
    move by one step at most, and a click on a progress step never moves
    forward. *)
Theorem wizard_stays_in_range (w : Wizard.t) (events : list event) :
  currentStep w = 0 ->
  let w' := fold_left handle events w in
  0 <= currentStep w' <= Z.max 0 (Z.of_nat (length (steps w)) - 1)
  /\ map id (steps w') = map id (steps w)
  /\ (forall v,
        currentStep v = Z.of_nat (length (steps v)) - 1 -> handle v Next = v)
  /\ (forall v, currentStep v = 0 -> handle v Back = v)
  /\ (forall v,
        currentStep v <= currentStep (handle v Next) <= currentStep v + 1
        /\ currentStep v - 1 <= currentStep (handle v Back) <= currentStep v)
  /\ (forall v index,
        currentStep (handle v (ClickProgress index)) <= currentStep v).
Proof.
  intros H0 w'. subst w'.
  split; [| split].
  - assert (G : forall es v,
               length (steps v) = length (steps w) ->
               0 <= currentStep v <= Z.max 0 (Z.of_nat (length (steps w)) - 1) ->
               0 <= currentStep (fold_left handle es v)
                 <= Z.max 0 (Z.of_nat (length (steps w)) - 1)).
    { induction es as [| e es IH]; intros v Hl Hv; [exact Hv |].
      cbn [fold_left]. apply IH.
      - destruct e as [| | index]; cbn [handle];
          try destruct (Z.ltb_spec index (currentStep v));
          try rewrite (proj1 (goToStep_steps _ v)); exact Hl.
      - destruct e as [| | index]; cbn [handle];
          try destruct (Z.ltb_spec index (currentStep v)); try exact Hv;
          match goal with
          | |- context [goToStep ?i v] =>
              destruct (goToStep_steps i v) as [_ [_ [E | [E R]]]];
              rewrite E; rewrite ?Hl in *; lia
          end. }
    apply G; [reflexivity | rewrite H0; lia].
  - assert (K : forall es v, map id (steps (fold_left handle es v))
                             = map id (steps v)).
    { clear. induction es as [| e es IH]; intros v; [reflexivity |].
      cbn [fold_left]. rewrite IH.
      destruct e as [| | index]; cbn [handle];
        try destruct (Z.ltb_spec index (currentStep v)); try reflexivity;
        apply goToStep_steps. }
    apply K.
  - split; [| split; [| split]].
    + intros v Hv. cbn [handle]. unfold goToStep.
      destruct (Z.geb_spec (currentStep v + 1) (Z.of_nat (length (steps v))));
        [rewrite orb_true_r; reflexivity | lia].
    + intros v Hv. cbn [handle]. unfold goToStep.
      destruct (Z.ltb_spec (currentStep v - 1) 0); [reflexivity | lia].
    + intros v. cbn [handle]. split.
      * destruct (goToStep_steps (currentStep v + 1) v) as [_ [_ [E | [E _]]]];
          rewrite E; lia.
      * destruct (goToStep_steps (currentStep v - 1) v) as [_ [_ [E | [E _]]]];
          rewrite E; lia.
    + intros v index. cbn [handle].
      destruct (Z.ltb_spec index (currentStep v)); [| lia].
      destruct (goToStep_steps index v) as [_ [_ [E | [E _]]]]; rewrite E; lia.
Qed.

Lemma wizard_stays_in_range_witness :
  currentStep
    (Wizard.mk [mkStep "one" true; mkStep "two" false; mkStep "" false]
          [mkProgress true false; mkProgress false false;
           mkProgress false false]
          [false; false] 0 None)
  = 0
  /\ 0 <= currentStep
            (fold_left handle [Next; Next; Next; ClickProgress 0; Back]
               (Wizard.mk [mkStep "one" true; mkStep "two" false; mkStep "" false]
          [mkProgress true false; mkProgress false false;
           mkProgress false false]
          [false; false] 0 None))
       <= 2.
Proof.
  split; [reflexivity |].
  apply (wizard_stays_in_range
           (Wizard.mk [mkStep "one" true; mkStep "two" false; mkStep "" false]
          [mkProgress true false; mkProgress false false;
           mkProgress false false]
          [false; false] 0 None)
           [Next; Next; Next; ClickProgress 0; Back]).
  reflexivity.
Defined.

End WizardProperties.
